(** * Fluent CRUD builders of [mysqlx/collection_crud.h]

    A shallow embedding of the header [include/mysqlx/collection_crud.h]:

    - [Hierarchy]: the class table of the header (base specifiers with their
      access, member declarations with their access and return type) and the
      member lookup that decides which call chains type-check;
    - [Core]: outcomes of calls (return, throw, null dereference) and the
      small state monad the operations run in;
    - [Sort]: the four [sort] overloads of [CollectionSort<R,H>], generic in
      the pure virtual [do_sort];
    - [Crud]: operation state, stage hooks, executor, and the classes
      [CollectionAddInterface<R>], [CollectionAdd] and [CollectionAddBase];
    - [Sample]: one concrete choice of the payload types and of a session.

    The properties follow in [HierarchyFacts], [SortFacts], [CrudFacts] and
    [Scenarios]. *)

From Stdlib Require Import List Bool Arith Lia NArith ZArith Ascii String.
From stdpp Require Import base option list strings gmap.
Import ListNotations.

Set Default Proof Using "Type".

(* ===================================================================== *)
(** ** The class table *)
(* ===================================================================== *)

Module Hierarchy.

(** C++ access specifiers, for members and for base classes. *)
Inductive Access := Public | Protected | Private.

(** Member functions named in the header. *)
Inductive Method :=
  | m_add | m_execute | m_sort | m_limit | m_offset | m_bind
  | m_set | m_unset | m_arrayInsert | m_arrayAppend | m_arrayDelete
  | m_remove | m_find | m_modify
  | m_do_add | m_initialize | m_do_sort | m_do_limit | m_do_offset
  | m_do_set | m_do_unset | m_do_arrayInsert | m_do_arrayAppend
  | m_do_arrayDelete.

(** How a result is handed back: [R&] or [R] by value (a move). *)
Inductive Passing := ByRef | ByVal.

(** Classes and class template instantiations.  The typedefs of the header
    are abbreviations below, so [CollectionRemoveLimit] and
    [CollectionModifyLimit] are the same class, as in C++. *)
Inductive Class :=
  | Void
  | Result
  | Executable
  | BindExec
  | Offset
  | Limit (R H : Class)
  | CollectionSort (R H : Class)
  | CollectionAddInterface (p : Passing)   (* R = CollectionAdd or CollectionAdd& *)
  | CollectionAdd
  | CollectionAddBase
  | RemoveExec
  | CollectionRemove
  | FindExec
  | CollectionFind
  | CollectionModifyInterface
  | CollectionModifyOp
  | CollectionModify
  | CollectionModifyBase.

(** [template <typename R, typename H=R>]: one argument means [H = R]. *)
Definition Limit1 (R : Class) : Class := Limit R R.
Definition CollectionSort1 (R : Class) : Class := CollectionSort R R.

Definition CollectionRemoveLimit : Class := Limit1 BindExec.
Definition CollectionRemoveOrder : Class := CollectionSort1 CollectionRemoveLimit.
Definition CollectionFindLimit : Class := Limit Offset BindExec.
Definition CollectionFindSort : Class := CollectionSort1 CollectionFindLimit.
Definition CollectionModifyLimit : Class := Limit1 BindExec.
Definition CollectionModifySort : Class := CollectionSort1 CollectionModifyLimit.

(** A member declaration: access, name, and the class of the returned
    object with the way it is passed. *)
Record Member := mkMember {
  macc : Access;
  mname : Method;
  mpass : Passing;
  mret : Class
}.

Definition Members := list Member.

Definition Method_eqb (a b : Method) : bool :=
  match a, b with
  | m_add, m_add | m_execute, m_execute | m_sort, m_sort | m_limit, m_limit
  | m_offset, m_offset | m_bind, m_bind | m_set, m_set | m_unset, m_unset
  | m_arrayInsert, m_arrayInsert | m_arrayAppend, m_arrayAppend
  | m_arrayDelete, m_arrayDelete | m_remove, m_remove | m_find, m_find
  | m_modify, m_modify | m_do_add, m_do_add | m_initialize, m_initialize
  | m_do_sort, m_do_sort | m_do_limit, m_do_limit | m_do_offset, m_do_offset
  | m_do_set, m_do_set | m_do_unset, m_do_unset
  | m_do_arrayInsert, m_do_arrayInsert | m_do_arrayAppend, m_do_arrayAppend
  | m_do_arrayDelete, m_do_arrayDelete => true
  | _, _ => false
  end.

Definition is_public (a : Access) : bool :=
  match a with Public => true | _ => false end.

Definition is_private (a : Access) : bool :=
  match a with Private => true | _ => false end.

(** Access of a base member seen through a base specifier: private members
    of the base are not inherited as accessible at all; the others keep
    their access through a public base, become protected through a
    protected base and private through a private one. *)
Definition through (base : Access) (m : Member) : Member :=
  match base with
  | Public => m
  | Protected => mkMember Protected (mname m) (mpass m) (mret m)
  | Private => mkMember Private (mname m) (mpass m) (mret m)
  end.

Definition inherit (base : Access) (ms : Members) : Members :=
  map (through base) (List.filter (fun m => negb (is_private (macc m))) ms).

Definition declared (decls : Members) (n : Method) : bool :=
  existsb (fun d => Method_eqb (mname d) n) decls.

(** Members of a class: its own declarations, then what it inherits; a name
    declared in the class hides the inherited members of that name. *)
Definition derive (bases : list (Access * Members)) (decls : Members) : Members :=
  decls ++
  List.filter (fun m => negb (declared decls (mname m)))
    (flat_map (fun b => inherit (fst b) (snd b)) bases).

Definition pub (n : Method) (p : Passing) (r : Class) := mkMember Public n p r.
Definition prot (n : Method) (p : Passing) (r : Class) := mkMember Protected n p r.
Definition priv (n : Method) (p : Passing) (r : Class) := mkMember Private n p r.

(** Modelled from the spec: [Executable] is declared in [mysqlx/task.h],
    which is not among the sources at hand.  It exposes [execute], which
    returns a [Result]. *)
Definition Executable_members : Members :=
  derive [] [pub m_execute ByVal Result].

(** Modelled from the spec: [BindExec], declared outside the sources at
    hand, is the Bind/Execute stage: an [Executable] with [bind], which
    returns the same stage. *)
Definition BindExec_members : Members :=
  derive [(Public, Executable_members)] [pub m_bind ByRef BindExec].

(** Modelled from the spec: [Offset], declared outside the sources at hand,
    is the Offset stage: the Bind/Execute stage with [offset], which returns
    the Bind/Execute stage through the hook [do_offset] that [FindExec]
    overrides ([BindExec& do_offset(unsigned rows) override]). *)
Definition Offset_members : Members :=
  derive [(Public, BindExec_members)]
         [priv m_do_offset ByRef BindExec; pub m_offset ByRef BindExec].

(** Modelled from the spec: the template [Limit<R,H>], declared outside the
    sources at hand, is shaped like [CollectionSort<R,H>] below: it derives
    virtually from [H], and its [limit] returns [R&] through the hook
    [do_limit] that the header overrides ([Offset& do_limit] in [FindExec],
    [BindExec& do_limit] in [RemoveExec] and [CollectionModify]). *)
Definition Limit_members (R : Class) (H : Members) : Members :=
  derive [(Public, H)] [priv m_do_limit ByRef R; pub m_limit ByRef R].

(** [template <typename R, typename H=R> class CollectionSort : public virtual H]
    with a private pure virtual [do_sort] and the public [sort] overloads,
    all returning [R&]. *)
Definition CollectionSort_members (R : Class) (H : Members) : Members :=
  derive [(Public, H)] [priv m_do_sort ByRef R; pub m_sort ByRef R].

(** [template <typename R> class CollectionAddInterface]: protected
    constructor and [do_add], public [add] returning [R].  The two
    overloads of [add] have the same access and return type, so one entry
    stands for the name; whether the body of the several-document overload
    instantiates is decided where the body is embedded ([Crud.add]). *)
Definition CollectionAddInterface_members (p : Passing) : Members :=
  derive [] [prot m_do_add p CollectionAdd; pub m_add p CollectionAdd].

(** [class CollectionAdd : public Executable,
                           public CollectionAddInterface<CollectionAdd&>]. *)
Definition CollectionAdd_members : Members :=
  derive [(Public, Executable_members);
          (Public, CollectionAddInterface_members ByRef)]
         [priv m_initialize ByVal Void; priv m_do_add ByRef CollectionAdd].

(** [class CollectionAddBase : public CollectionAddInterface<CollectionAdd>];
    everything it declares itself is private. *)
Definition CollectionAddBase_members : Members :=
  derive [(Public, CollectionAddInterface_members ByVal)]
         [priv m_do_add ByVal CollectionAdd].

(** Members of a class or instantiation, given those of the classes that
    are not templates: the templates add their members to those of [H]. *)
Fixpoint instantiate (named : Class -> Members) (c : Class) : Members :=
  match c with
  | Limit R H => Limit_members R (instantiate named H)
  | CollectionSort R H => CollectionSort_members R (instantiate named H)
  | _ => named c
  end.

Definition CollectionRemove_members : Members :=
  derive [] [pub m_remove ByRef CollectionRemoveOrder].

Definition CollectionFind_members : Members :=
  derive [] [pub m_find ByRef CollectionFindSort].

Definition CollectionModifyInterface_members : Members :=
  derive []
    [prot m_do_set ByRef CollectionModifyOp;
     prot m_do_arrayInsert ByRef CollectionModifyOp;
     prot m_do_unset ByRef CollectionModifyOp;
     prot m_do_arrayAppend ByRef CollectionModifyOp;
     prot m_do_arrayDelete ByRef CollectionModifyOp;
     pub m_set ByRef CollectionModifyOp;
     pub m_unset ByRef CollectionModifyOp;
     pub m_arrayInsert ByRef CollectionModifyOp;
     pub m_arrayAppend ByRef CollectionModifyOp;
     pub m_arrayDelete ByRef CollectionModifyOp].

Definition CollectionModifyBase_members : Members :=
  derive [] [pub m_modify ByVal CollectionModify].

(** The classes that derive from no instantiation of the stage templates. *)
Definition plain_members (c : Class) : Members :=
  match c with
  | Executable => Executable_members
  | BindExec => BindExec_members
  | Offset => Offset_members
  | CollectionAddInterface p => CollectionAddInterface_members p
  | CollectionAdd => CollectionAdd_members
  | CollectionAddBase => CollectionAddBase_members
  | CollectionRemove => CollectionRemove_members
  | CollectionFind => CollectionFind_members
  | CollectionModifyInterface => CollectionModifyInterface_members
  | CollectionModifyBase => CollectionModifyBase_members
  | _ => []
  end.

(** The instantiations the typedefs name take only such classes as
    arguments. *)
Definition typedef_members (c : Class) : Members := instantiate plain_members c.

(** [class RemoveExec : public CollectionRemoveOrder] with public overrides. *)
Definition RemoveExec_members : Members :=
  derive [(Public, typedef_members CollectionRemoveOrder)]
         [pub m_do_limit ByRef BindExec; pub m_do_sort ByRef CollectionRemoveLimit].

(** [class FindExec : public CollectionFindSort, public Offset]; the
    overrides are private. *)
Definition FindExec_members : Members :=
  derive [(Public, typedef_members CollectionFindSort); (Public, Offset_members)]
         [priv m_do_sort ByRef CollectionFindSort;
          priv m_do_limit ByRef Offset;
          priv m_do_offset ByRef BindExec].

(** [class CollectionModifyOp : public virtual CollectionModifyInterface,
                                public CollectionModifySort]. *)
Definition CollectionModifyOp_members : Members :=
  derive [(Public, CollectionModifyInterface_members);
          (Public, typedef_members CollectionModifySort)]
    [priv m_do_set ByRef CollectionModifyOp;
     priv m_do_arrayInsert ByRef CollectionModifyOp;
     priv m_do_unset ByRef CollectionModifyOp;
     priv m_do_arrayAppend ByRef CollectionModifyOp;
     priv m_do_arrayDelete ByRef CollectionModifyOp].

(** [class CollectionModify : CollectionModifyOp,
                              public virtual CollectionModifyInterface]:
    the first base has no access specifier, so it is private. *)
Definition CollectionModify_members : Members :=
  derive [(Private, CollectionModifyOp_members);
          (Public, CollectionModifyInterface_members)]
    [priv m_do_sort ByRef CollectionModifyLimit;
     priv m_do_limit ByRef BindExec].

Definition named_members (c : Class) : Members :=
  match c with
  | RemoveExec => RemoveExec_members
  | FindExec => FindExec_members
  | CollectionModifyOp => CollectionModifyOp_members
  | CollectionModify => CollectionModify_members
  | _ => plain_members c
  end.

Definition members_of (c : Class) : Members := instantiate named_members c.

(** A call [x.m(...)] from user code on an expression of static class [c]
    type-checks when some path makes [m] a public member of [c]; the
    expression then has the class the member returns.  This is lookup and
    access of the name: for [m_add], a call with one document. *)
Definition step (c : Class) (m : Method) : option Class :=
  match List.find (fun d => Method_eqb (mname d) m && is_public (macc d))
                  (members_of c) with
  | Some d => Some (mret d)
  | None => None
  end.

(** A call chain [x.m1(...).m2(...)...] . *)
Fixpoint run (c : Class) (ms : list Method) : option Class :=
  match ms with
  | [] => Some c
  | m :: ms' =>
      match step c m with
      | Some c' => run c' ms'
      | None => None
      end
  end.

Definition legal (c : Class) (ms : list Method) : Prop := is_Some (run c ms).

(** The names user code can call on [c]. *)
Definition surface (c : Class) : list Method :=
  map mname (List.filter (fun d => is_public (macc d)) (members_of c)).

(** *** Stage order *)

(** The three builders with stages, and the class their entry method
    returns: [find()] a [CollectionFindSort&], [remove()] a
    [CollectionRemoveOrder&], [modify()] a [CollectionModify]. *)
Inductive Builder := Find | Remove | Modify.

Definition entry (b : Builder) : Class :=
  match b with
  | Find => CollectionFindSort
  | Remove => CollectionRemoveOrder
  | Modify => CollectionModify
  end.

(** The class of a builder that exposes [sort]. *)
Definition sort_stage (b : Builder) : Class :=
  match b with
  | Find => CollectionFindSort
  | Remove => CollectionRemoveOrder
  | Modify => CollectionModifyOp
  end.

(** The class [sort] returns: the Limit stage. *)
Definition limit_stage (b : Builder) : Class :=
  match b with
  | Find => CollectionFindLimit
  | Remove => CollectionRemoveLimit
  | Modify => CollectionModifyLimit
  end.

(** Position of a method in the canonical order: update steps (Modify
    only), Sort, Limit, Offset, then Bind and Execute. *)
Definition rank (m : Method) : nat :=
  match m with
  | m_set | m_unset | m_arrayInsert | m_arrayAppend | m_arrayDelete => 0
  | m_sort => 1
  | m_limit => 2
  | m_offset => 3
  | m_bind => 4
  | m_execute => 5
  | _ => 6
  end.

(** Update steps and [bind] return their own stage, so they may repeat. *)
Definition repeatable (m : Method) : bool :=
  match m with
  | m_set | m_unset | m_arrayInsert | m_arrayAppend | m_arrayDelete
  | m_bind => true
  | _ => false
  end.

(** [a] may come before [b] in a chain. *)
Definition before (a b : Method) : bool :=
  (rank a <? rank b) || (repeatable a && (rank a =? rank b)).

(** Every call of the chain may come before every later one. *)
Fixpoint ordered (ms : list Method) : bool :=
  match ms with
  | [] => true
  | a :: ms' => forallb (before a) ms' && ordered ms'
  end.

(** Every [offset] of the chain comes right after a [limit]. *)
Fixpoint offset_follows_limit (prev : option Method) (ms : list Method) : bool :=
  match ms with
  | [] => true
  | m :: ms' =>
      (match m, prev with
       | m_offset, Some m_limit => true
       | m_offset, _ => false
       | _, _ => true
       end) && offset_follows_limit (Some m) ms'
  end.

(** The least rank among the methods a class exposes. *)
Definition floor (c : Class) : nat :=
  fold_right Nat.min 7 (map rank (surface c)).

(** The classes a chain can pass through. *)
Definition stage_classes : list Class :=
  [CollectionFindSort; CollectionFindLimit; Offset; BindExec; Result;
   CollectionRemoveOrder; CollectionRemoveLimit;
   CollectionModify; CollectionModifyOp].

(** The classes a Remove or Modify chain passes through expose no
    [offset]. *)
Definition offset_free : list Class :=
  [CollectionRemoveOrder; CollectionRemoveLimit; BindExec; Result;
   CollectionModify; CollectionModifyOp].

(** A chain is a forward one for a builder when it uses the stage methods
    of the builder only and keeps the canonical order. *)
Definition stage_methods (b : Builder) : list Method :=
  match b with
  | Find => [m_sort; m_limit; m_offset; m_bind; m_execute]
  | Remove => [m_sort; m_limit; m_bind; m_execute]
  | Modify => [m_sort; m_limit; m_bind; m_execute]
  end.

Definition forward_chain (b : Builder) (ms : list Method) : bool :=
  forallb (fun m => existsb (Method_eqb m) (stage_methods b)) ms && ordered ms.

End Hierarchy.

(* ===================================================================== *)
(** ** Outcomes of calls *)
(* ===================================================================== *)

Module Core.

(** Modelled from the spec: the error kinds of section 7; the exception
    classes themselves are declared in [mysqlx/common.h]. *)
Inductive ErrorKind :=
  | InvalidArgument | StageMisuse | EmptyBatch | UnresolvedBinding
  | CollectionGone | Transport | ServerError | Cancelled.

(** Modelled from the spec: the failures that come from the session, and
    the kind under which [execute] reports each. *)
Inductive Downstream := TransportFailure | ServerFailure | Cancellation.

Definition surfaced (f : Downstream) : ErrorKind :=
  match f with
  | TransportFailure => Transport
  | ServerFailure => ServerError
  | Cancellation => Cancelled
  end.

(** What a call can do: return a value, leave by an exception, or
    dereference a null pointer (undefined behaviour). *)
Inductive Outcome (A : Type) :=
  | Returned (a : A)
  | Thrown (e : ErrorKind)
  | NullDeref.

Arguments Returned {A} a.
Arguments Thrown {A} e.
Arguments NullDeref {A}.

(** A member function of an object of state [S]: the state it leaves
    behind is kept also when it throws. *)
Definition M (S A : Type) : Type := S -> Outcome A * S.

Definition ret {S A} (a : A) : M S A := fun s => (Returned a, s).

Definition throw {S A} (e : ErrorKind) : M S A := fun s => (Thrown e, s).

Definition and_then {S A B} (m : M S A) (k : A -> M S B) : M S B :=
  fun s =>
    match m s with
    | (Returned a, s') => k a s'
    | (Thrown e, s') => (Thrown e, s')
    | (NullDeref, s') => (NullDeref, s')
    end.

(** [*p] for a pointer [p] that may be null. *)
Definition deref {S A} (p : option A) : M S A :=
  fun s => match p with Some a => (Returned a, s) | None => (NullDeref, s) end.

Definition obind {A B} (o : Outcome A) (k : A -> Outcome B) : Outcome B :=
  match o with
  | Returned a => k a
  | Thrown e => Thrown e
  | NullDeref => NullDeref
  end.

(** Modelled from the spec: the macro [CATCH_AND_WRAP] comes from
    [mysqlx/common.h]; it catches what the [try] block throws and throws it
    again as the library's own error, and the kind of the failure is kept. *)
Definition catch_and_wrap {A} (o : Outcome A) : Outcome A :=
  match o with
  | Thrown e => Thrown e
  | other => other
  end.

End Core.

Declare Scope crud_scope.
Delimit Scope crud_scope with crud.
Notation "x <- m ;; k" := (Core.and_then m (fun x => k))
  (at level 20, m at level 99, k at level 200, only parsing) : crud_scope.
Notation "m ;;; k" := (Core.and_then m (fun _ => k))
  (at level 100, k at level 200, only parsing, right associativity) : crud_scope.

(* ===================================================================== *)
(** ** [CollectionSort<R,H>] *)
(* ===================================================================== *)

Module Sort.
Import Core.
Local Open Scope crud_scope.

(** What the template overload [sort(Ord ord)] needs of [Ord] to compile:
    a range-based [for] over it, and the implicit conversion to
    [mysqlx::string] that the call [do_sort(ord)] applies. *)
Class Iterable (Ord : Type) := {
  El : Type;
  elements : Ord -> list El;
  to_string : Ord -> string
}.

(** An argument of [sort], by the overload a call with this one argument
    selects: [const string&] for a [mysqlx::string], [const char*] for a
    C string, and the template for every other type. *)
Inductive SortArg (Ord : Type) :=
  | ArgString (s : string)
  | ArgCStr (s : string)
  | ArgOrd (o : Ord).

Arguments ArgString {Ord} s.
Arguments ArgCStr {Ord} s.
Arguments ArgOrd {Ord} o.

Section CollectionSort.
(** [Obj] is the state of the object the builder is a view of, [R] what a
    reference of the return type designates. *)
Context {Obj R Ord : Type} `{Iterable Ord}.

(** [virtual R& do_sort(const string&) = 0]. *)
Variable do_sort : string -> M Obj R.

(** The conversion to [mysqlx::string] applied where an argument is
    passed on to [do_sort]. *)
Definition as_key (a : SortArg Ord) : string :=
  match a with
  | ArgString s => s
  | ArgCStr s => s
  | ArgOrd o => to_string o
  end.

(** [R& sort(const string& ord)]. *)
Definition sort_string (ord : string) : M Obj R := do_sort ord.

(** [R& sort(const char* ord)]. *)
Definition sort_cstr (ord : string) : M Obj R := do_sort ord.

(** The loop [for (auto el : ord) { ret = &do_sort(ord); }] on the elements
    still to visit; [ret] is the pointer so far. *)
Fixpoint sort_loop (ord : Ord) (els : list El) (ret : option R)
  : M Obj (option R) :=
  match els with
  | [] => Core.ret ret
  | _ :: els' =>
      r <- do_sort (to_string ord) ;;
      sort_loop ord els' (Some r)
  end.

(** [template <typename Ord> R& sort(Ord ord)]:
    [R* ret = NULL; for ... ; return *ret;]. *)
Definition sort_iterable (ord : Ord) : M Obj R :=
  ret <- sort_loop ord (elements ord) None ;;
  deref ret.

(** A call [sort(a)] with one argument. *)
Definition sort1 (a : SortArg Ord) : M Obj R :=
  match a with
  | ArgString s => sort_string s
  | ArgCStr s => sort_cstr s
  | ArgOrd o => sort_iterable o
  end.

(** [template <typename Ord, typename...Type>
     R& sort(Ord ord, const Type...rest) { do_sort(ord); return sort(rest...); }]
    with a call on an empty pack resolved to a one-argument overload. *)
Fixpoint sort_variadic (ord : SortArg Ord) (rest : list (SortArg Ord))
  : M Obj R :=
  match rest with
  | [] => sort1 ord
  | next :: rest' =>
      do_sort (as_key ord) ;;;
      sort_variadic next rest'
  end.

(** What the documentation asks of the template overload: one [do_sort]
    per element, in order.  [key_of] converts an element to a key. *)
Fixpoint sort_each (key_of : El -> string) (els : list El) (ret : option R)
  : M Obj (option R) :=
  match els with
  | [] => Core.ret ret
  | el :: els' =>
      r <- do_sort (key_of el) ;;
      sort_each key_of els' (Some r)
  end.

(** Calls of [do_sort] one after the other, keeping the last reference. *)
Fixpoint do_sort_seq (keys : list string) (ret : option R)
  : M Obj (option R) :=
  match keys with
  | [] => Core.ret ret
  | k :: keys' =>
      r <- do_sort k ;;
      do_sort_seq keys' (Some r)
  end.

End CollectionSort.

(** Does a call with this one argument select one of the two text
    overloads? *)
Definition is_text {Ord} (a : SortArg Ord) : bool :=
  match a with
  | ArgString _ | ArgCStr _ => true
  | ArgOrd _ => false
  end.

(** [std::string]: a range of characters, with the converting constructor
    of [mysqlx::string]. *)
#[export] Instance std_string_Iterable : Iterable string := {|
  El := ascii;
  elements := list_ascii_of_string;
  to_string := fun s => s
|}.

(** An override of [do_sort] that only records the key it is given. *)
Definition record_sort (key : string) : M (list string) unit :=
  fun log => (Returned tt, log ++ [key]).

(** A container of keys that also converts to text, such as a class derived
    from [std::vector<mysqlx::string>] with a conversion operator. *)
Record KeyList := mkKeyList {
  keys : list string;
  as_text : string
}.

#[export] Instance KeyList_Iterable : Iterable KeyList := {|
  El := string;
  elements := keys;
  to_string := as_text
|}.

End Sort.

(* ===================================================================== *)
(** ** Operation state, stage hooks and executor *)
(* ===================================================================== *)

Module Crud.
Import Core.
Local Open Scope crud_scope.

(** [unsigned], the argument type of [limit] and [offset]: the naturals up
    to [unsigned_max].  The hooks store the value they are given. *)
Definition unsigned_max : N := 4294967295.

(** The conversion a call site applies to an integer argument. *)
Definition to_unsigned (z : Z) : N := Z.to_N (z mod 4294967296).

(** Modelled from the spec: the characters of a blank sort key. *)
Definition is_space (c : ascii) : bool :=
  match c with
  | " "%char => true
  | "009"%char | "010"%char | "011"%char | "012"%char | "013"%char => true
  | _ => false
  end.

(** Modelled from the spec: empty, blank or whitespace-only text. *)
Definition is_blank (s : string) : bool :=
  forallb is_space (list_ascii_of_string s).

Definition is_alpha_ (c : ascii) : bool :=
  let n := nat_of_ascii c in
  ((65 <=? n) && (n <=? 90)) || ((97 <=? n) && (n <=? 122)) || (n =? 95).

Definition is_digit (c : ascii) : bool :=
  let n := nat_of_ascii c in (48 <=? n) && (n <=? 57).

(** Modelled from the spec: parameter names match
    [[A-Za-z_][A-Za-z0-9_]*]. *)
Definition valid_param_name (p : string) : bool :=
  match list_ascii_of_string p with
  | [] => false
  | c :: cs => is_alpha_ c && forallb (fun d => is_alpha_ d || is_digit d) cs
  end.

Inductive Kind := ADD | FIND | REMOVE | MODIFY.

(** A reference to the object a hook was called on ([return *this]). *)
Inductive This := this.

Section Values.
(** The payload types come from other headers: [Collection], [DbDoc],
    [ExprValue], [Field]; so does what the server answers. *)
Context {Collection DbDoc ExprValue Field Reply : Type}.

(** A document is given as JSON text or as a [DbDoc]: the two overloads of
    [do_add]. *)
Inductive Doc :=
  | DocJson (json : string)
  | DocTree (doc : DbDoc).

Inductive UpdateStep :=
  | SET (f : Field) (v : ExprValue)
  | UNSET (f : Field)
  | ARRAY_INSERT (f : Field) (v : ExprValue)
  | ARRAY_APPEND (f : Field) (v : ExprValue)
  | ARRAY_DELETE (f : Field).

(** Modelled from the spec: the operation state of section 3.  The bodies
    that keep it ([Executable], [Task] and the [do_*] overrides) are in
    files that are not part of the sources at hand.  One record serves the
    four kinds; a kind leaves the fields it does not have empty, and the
    class table keeps the methods of the other kinds from being called. *)
Record OpState := mkOp {
  op_kind : Kind;
  op_coll : Collection;
  op_filter : option string;
  op_updates : list UpdateStep;
  op_sort : list string;
  op_limit : option N;
  op_offset : option N;
  op_docs : list Doc;
  op_bindings : gmap string ExprValue
}.

(** Modelled from the spec: the normalized request of section 6 that the
    protocol encoder accepts. *)
Record Request := mkRequest {
  req_kind : Kind;
  req_collection : Collection;
  req_filter : option string;
  req_updates : list UpdateStep;
  req_sort : list string;
  req_limit : option N;
  req_offset : option N;
  req_docs : list Doc;
  req_bindings : gmap string ExprValue
}.

(** Modelled from the spec: the request takes over the fields of the
    state, lists in their order: filter, update steps in declaration order,
    sort keys, limit. *)
Definition encode (s : OpState) : Request :=
  {| req_kind := op_kind s;
     req_collection := op_coll s;
     req_filter := op_filter s;
     req_updates := op_updates s;
     req_sort := op_sort s;
     req_limit := op_limit s;
     req_offset := op_offset s;
     req_docs := op_docs s;
     req_bindings := op_bindings s |}.

(** Modelled from the spec: the task an [Executable] holds.  [executed]
    is set by a successful execute, [rebound] by a [bind] after it. *)
Record Task := mkTask {
  state : OpState;
  executed : bool;
  rebound : bool
}.

(** Modelled from the spec: [Executable] owns its task until it is moved
    from; [None] is the moved-from husk. *)
Record Executable := mkExecutable { m_task : option Task }.

Definition moved_from (x : Executable) : bool :=
  match m_task x with None => true | Some _ => false end.

Definition fresh (s : OpState) : Executable :=
  mkExecutable (Some (mkTask s false false)).

Definition empty_op (k : Kind) (coll : Collection) (f : option string) : OpState :=
  mkOp k coll f [] [] None None [] ∅.

(** Modelled from the spec: the move constructor of [Executable] hands the
    task to the new object and leaves the source inert. *)
Definition Executable_move (other : Executable) : Executable * Executable :=
  (mkExecutable (m_task other), mkExecutable None).

(** Modelled from the spec: a mutation other than [bind] is refused with
    StageMisuse on a moved-from or executed state, and a refused call
    leaves the state as it was. *)
Definition mutate (f : OpState -> OpState) : M Executable This :=
  fun x =>
    match m_task x with
    | None => (Thrown StageMisuse, x)
    | Some t =>
        if executed t then (Thrown StageMisuse, x)
        else (Returned this,
              mkExecutable (Some (mkTask (f (state t)) false (rebound t))))
    end.

Definition with_sort (k : string) (s : OpState) : OpState :=
  mkOp (op_kind s) (op_coll s) (op_filter s) (op_updates s)
       (op_sort s ++ [k]) (op_limit s) (op_offset s) (op_docs s)
       (op_bindings s).

Definition with_limit (rows : N) (s : OpState) : OpState :=
  mkOp (op_kind s) (op_coll s) (op_filter s) (op_updates s)
       (op_sort s) (Some rows) (op_offset s) (op_docs s) (op_bindings s).

Definition with_offset (rows : N) (s : OpState) : OpState :=
  mkOp (op_kind s) (op_coll s) (op_filter s) (op_updates s)
       (op_sort s) (op_limit s) (Some rows) (op_docs s) (op_bindings s).

Definition with_doc (d : Doc) (s : OpState) : OpState :=
  mkOp (op_kind s) (op_coll s) (op_filter s) (op_updates s)
       (op_sort s) (op_limit s) (op_offset s) (op_docs s ++ [d])
       (op_bindings s).

Definition with_update (u : UpdateStep) (s : OpState) : OpState :=
  mkOp (op_kind s) (op_coll s) (op_filter s) (op_updates s ++ [u])
       (op_sort s) (op_limit s) (op_offset s) (op_docs s) (op_bindings s).

Definition with_binding (p : string) (v : ExprValue) (s : OpState) : OpState :=
  mkOp (op_kind s) (op_coll s) (op_filter s) (op_updates s)
       (op_sort s) (op_limit s) (op_offset s) (op_docs s)
       (<[p := v]> (op_bindings s)).

(** Modelled from the spec: [do_sort] of [FindExec], [RemoveExec] and
    [CollectionModify] rejects an empty or blank key and otherwise appends
    the key to the sort list. *)
Definition do_sort (ord : string) : M Executable This :=
  if is_blank ord then throw InvalidArgument
  else mutate (with_sort ord).

(** Modelled from the spec: [do_limit] overwrites the limit. *)
Definition do_limit (rows : N) : M Executable This := mutate (with_limit rows).

(** Modelled from the spec: [do_offset] overwrites the offset. *)
Definition do_offset (rows : N) : M Executable This := mutate (with_offset rows).

(** Modelled from the spec: [bind] inserts or overwrites in the binding
    table; it is the one mutation an executed state accepts. *)
Definition do_bind (p : string) (v : ExprValue) : M Executable This :=
  fun x =>
    if valid_param_name p then
      match m_task x with
      | None => (Thrown StageMisuse, x)
      | Some t =>
          (Returned this,
           mkExecutable
             (Some (mkTask (with_binding p v (state t)) (executed t)
                           (executed t || rebound t))))
      end
    else (Thrown InvalidArgument, x).

(** Modelled from the spec: the update hooks of [CollectionModifyOp]
    append one step each. *)
Definition do_update (u : UpdateStep) : M Executable This :=
  mutate (with_update u).

(** Modelled from the spec: the stage methods of [Limit], [Offset] and
    [BindExec] forward to their hooks, as [sort] does to [do_sort]. *)
Definition limit (rows : N) : M Executable This := do_limit rows.

Definition offset (rows : N) : M Executable This := do_offset rows.

Definition bind (p : string) (v : ExprValue) : M Executable This := do_bind p v.

(* ------------------------------------------------------------------- *)
(** *** The executor *)

(** The expression layer names the parameters a filter text or an update
    value refers to; the session answers a request.  Both are external. *)
Variable placeholders : string -> list string.
Variable value_placeholders : ExprValue -> list string.
Variable submit : Request -> Downstream + Reply.

(** Modelled from the spec: what is outside the builder, the requests put
    on the wire so far and which collections are still there. *)
Record World := mkWorld {
  wire : list Request;
  alive : Collection -> bool
}.

(** Modelled from the spec: the handle an execute returns, one per round
    trip. *)
Record Result := mkResult {
  result_id : nat;
  reply : Reply
}.

Definition update_placeholders (u : UpdateStep) : list string :=
  match u with
  | SET _ v | ARRAY_INSERT _ v | ARRAY_APPEND _ v => value_placeholders v
  | UNSET _ | ARRAY_DELETE _ => []
  end.

Definition referenced (s : OpState) : list string :=
  match op_filter s with Some f => placeholders f | None => [] end
  ++ flat_map update_placeholders (op_updates s).

Definition bound (s : OpState) (p : string) : bool :=
  match op_bindings s !! p with Some _ => true | None => false end.

Definition is_add (k : Kind) : bool :=
  match k with ADD => true | _ => false end.

Definition no_docs (s : OpState) : bool :=
  match op_docs s with [] => true | _ => false end.

(** Modelled from the spec: the preconditions of section 4.4, checked
    before anything is put on the wire. *)
Definition validate (w : World) (s : OpState) : option ErrorKind :=
  if negb (alive w (op_coll s)) then Some CollectionGone
  else if is_add (op_kind s) && no_docs s then Some EmptyBatch
  else if negb (forallb (bound s) (referenced s)) then Some UnresolvedBinding
  else None.

(** Modelled from the spec: [Executable::execute].  A moved-from state,
    or an executed one that was not bound again, is refused with
    StageMisuse; then the preconditions; then one round trip. *)
Definition execute (x : Executable) (w : World)
  : Outcome Result * Executable * World :=
  match m_task x with
  | None => (Thrown StageMisuse, x, w)
  | Some t =>
      if executed t && negb (rebound t) then (Thrown StageMisuse, x, w)
      else
        match validate w (state t) with
        | Some e => (Thrown e, x, w)
        | None =>
            let req := encode (state t) in
            let w' := mkWorld (wire w ++ [req]) (alive w) in
            match submit req with
            | inl f => (Thrown (surfaced f), x, w')
            | inr r =>
                (Returned (mkResult (length (wire w)) r),
                 mkExecutable (Some (mkTask (state t) true false)),
                 w')
            end
        end
  end.

(** Modelled from the spec: [find()] and [find(expr)] start a Find state,
    with the filter if one is given. *)
Definition find (coll : Collection) (expr : option string) : Executable :=
  fresh (empty_op FIND coll expr).

(** Modelled from the spec: [remove()] and [remove(expr)] start a Remove
    state. *)
Definition remove (coll : Collection) (expr : option string) : Executable :=
  fresh (empty_op REMOVE coll expr).

(** Modelled from the spec: [modify()] and [modify(expr)] start a Modify
    state, which always has a filter, the empty text standing for all
    documents. *)
Definition modify (coll : Collection) (expr : option string) : Executable :=
  fresh (empty_op MODIFY coll (Some (default EmptyString expr))).

(* ------------------------------------------------------------------- *)
(** *** Adding documents *)

(** [class CollectionAdd : public Executable,
                           public CollectionAddInterface<CollectionAdd&>]:
    the [Executable] subobject and the reference [m_coll]. *)
Record CollectionAdd := mkCollectionAdd {
  add_exec : Executable;
  add_coll : Collection
}.

Record CollectionAddBase := mkCollectionAddBase {
  base_coll : Collection
}.

(** Modelled from the spec: [initialize] sets up an Add state with no
    document for the collection of the builder. *)
Definition initialize (a : CollectionAdd) : CollectionAdd :=
  mkCollectionAdd (fresh (empty_op ADD (add_coll a) None)) (add_coll a).

(** Modelled from the spec: [CollectionAdd::do_add] appends the document
    to the list and returns [*this]. *)
Definition CollectionAdd_do_add (d : Doc) (a : CollectionAdd)
  : Outcome CollectionAdd :=
  match mutate (with_doc d) (add_exec a) with
  | (Returned _, x) => Returned (mkCollectionAdd x (add_coll a))
  | (Thrown e, _) => Thrown e
  | (NullDeref, _) => NullDeref
  end.

(** [CollectionAdd(Collection &coll, const D &doc) : Base(coll)
     { initialize(); do_add(doc); }]. *)
Definition CollectionAdd_new (coll : Collection) (d : Doc)
  : Outcome CollectionAdd :=
  CollectionAdd_do_add d (initialize (mkCollectionAdd (mkExecutable None) coll)).

(** [CollectionAdd(CollectionAdd &&other)
     : Executable(std::move(other)), Base(other.m_coll)]: the new object
    and what is left of [other]. *)
Definition CollectionAdd_move (other : CollectionAdd)
  : CollectionAdd * CollectionAdd :=
  let (x, husk) := Executable_move (add_exec other) in
  (mkCollectionAdd x (add_coll other), mkCollectionAdd husk (add_coll other)).

(** [template <typename R> class CollectionAddInterface]: the reference
    [m_coll], the hooks [do_add], and how [return std::move(x)], with [x] a
    [CollectionAdd], initialises the [R] that is returned; [hand_back] is
    [None] where an rvalue cannot initialise an [R]. *)
Class CollectionAddInterface (Self : Type) := {
  m_coll : Self -> Collection;
  do_add : Doc -> Self -> Outcome CollectionAdd;
  hand_back : option (CollectionAdd -> CollectionAdd)
}.

(** [R = CollectionAdd&]: an lvalue reference to [CollectionAdd] does not
    bind to the rvalue [std::move(...)], so the return statement of the
    several-document overload is ill-formed in this instantiation. *)
#[global] Instance CollectionAdd_interface : CollectionAddInterface CollectionAdd := {|
  m_coll := add_coll;
  do_add := CollectionAdd_do_add;
  hand_back := None
|}.

(** [R = CollectionAdd]: [do_add] constructs the operation with its first
    document, and a result is move-constructed. *)
#[global] Instance CollectionAddBase_interface : CollectionAddInterface CollectionAddBase := {|
  m_coll := base_coll;
  do_add := fun d b => CollectionAdd_new (base_coll b) d;
  hand_back := Some (fun a => fst (CollectionAdd_move a))
|}.

(** [template <typename D> R add(const D &doc) { return do_add(doc); }]. *)
Definition add1 {Self} `{CollectionAddInterface Self}
    (doc : Doc) (self : Self) : Outcome CollectionAdd :=
  do_add doc self.

(** The several-document overload,
    [try { return std::move(do_add(first).add(rest...)); } CATCH_AND_WRAP],
    as the instantiation the compiler makes of it, or none where the
    instantiation is ill-formed; [inner] is the instantiation of
    [add(rest...)] on the [CollectionAdd] that [do_add] returns. *)
Definition add_first {Self} `{CollectionAddInterface Self}
    (inner : option (CollectionAdd -> Outcome CollectionAdd))
    (first : Doc) : option (Self -> Outcome CollectionAdd) :=
  match inner, hand_back with
  | Some add_rest, Some give =>
      Some (fun self =>
              catch_and_wrap
                (obind (do_add first self) (fun a =>
                 obind (add_rest a) (fun a' => Returned (give a')))))
  | _, _ => None
  end.

(** A call [add(first, rest...)] on a [CollectionAdd]: the one-document
    overload for one document, the several-document one otherwise. *)
Fixpoint CollectionAdd_add (first : Doc) (rest : list Doc)
    : option (CollectionAdd -> Outcome CollectionAdd) :=
  match rest with
  | [] => Some (add1 first)
  | next :: rest' => add_first (CollectionAdd_add next rest') first
  end.

(** A call [add(first, rest...)] of the interface, for either
    instantiation: the function the call compiles to, if it compiles. *)
Definition add {Self} `{CollectionAddInterface Self}
    (first : Doc) (rest : list Doc) : option (Self -> Outcome CollectionAdd) :=
  match rest with
  | [] => Some (add1 first)
  | next :: rest' => add_first (CollectionAdd_add next rest') first
  end.

(** One-document [add] calls one after the other on the object the
    previous call returned: [x.add(d1).add(d2)...]. *)
Fixpoint add_chain (ds : list Doc) (a : CollectionAdd) : Outcome CollectionAdd :=
  match ds with
  | [] => Returned a
  | d :: ds' => obind (add1 d a) (add_chain ds')
  end.

(** One call in a chain on an Add builder, with its arguments. *)
Inductive AddStep :=
  | StepAdd (first : Doc) (rest : list Doc)
  | StepExecute.

Definition compiled {A} (f : option A) : bool :=
  match f with Some _ => true | None => false end.

(** Does the overload that [add(first, rest...)] selects on an expression
    of class [c] instantiate? *)
Definition add_instantiates (c : Hierarchy.Class) (first : Doc) (rest : list Doc)
  : bool :=
  match c with
  | Hierarchy.CollectionAddBase =>
      compiled (add (Self := CollectionAddBase) first rest)
  | Hierarchy.CollectionAdd =>
      compiled (add (Self := CollectionAdd) first rest)
  | _ => false
  end.

(** A call compiles when the member is found and accessible and, for
    [add], the overload selected instantiates; the expression then has the
    class the member returns. *)
Definition add_step (c : Hierarchy.Class) (k : AddStep) : option Hierarchy.Class :=
  match k with
  | StepAdd first rest =>
      if add_instantiates c first rest
      then Hierarchy.step c Hierarchy.m_add
      else None
  | StepExecute => Hierarchy.step c Hierarchy.m_execute
  end.

Fixpoint add_run (c : Hierarchy.Class) (ks : list AddStep) : option Hierarchy.Class :=
  match ks with
  | [] => Some c
  | k :: ks' =>
      match add_step c k with
      | Some c' => add_run c' ks'
      | None => None
      end
  end.

(** One-document [add] calls, then at most one [execute]. *)
Fixpoint add_tail (ks : list AddStep) : bool :=
  match ks with
  | [] => true
  | StepAdd _ [] :: ks' => add_tail ks'
  | StepExecute :: ks' => match ks' with [] => true | _ => false end
  | _ => false
  end.

(** Nothing, or [add] with one or two documents and then [add_tail]. *)
Definition add_chain_shape (ks : list AddStep) : bool :=
  match ks with
  | [] => true
  | StepAdd _ rest :: ks' => (length rest <=? 1) && add_tail ks'
  | _ => false
  end.

(** [execute] of the [Executable] base. *)
Definition CollectionAdd_execute (a : CollectionAdd) (w : World)
  : Outcome Result * CollectionAdd * World :=
  let '(r, x, w') := execute (add_exec a) w in
  (r, mkCollectionAdd x (add_coll a), w').

(** The documents a builder holds: none once it is moved from. *)
Definition docs_of (a : CollectionAdd) : option (list Doc) :=
  match m_task (add_exec a) with
  | Some t => Some (op_docs (state t))
  | None => None
  end.

(** The builders a program can hold for the collection [coll]:
    [coll.add(d, rest...)], a further [add] on a builder, the two sides
    of a move construction, and a builder after [execute]. *)
Inductive Reached (coll : Collection) : CollectionAdd -> Prop :=
  | reached_entry d rest f a :
      add d rest = Some f ->
      f (mkCollectionAddBase coll) = Returned a ->
      Reached coll a
  | reached_add a d rest f a' :
      Reached coll a -> add d rest = Some f -> f a = Returned a' ->
      Reached coll a'
  | reached_move a :
      Reached coll a -> Reached coll (fst (CollectionAdd_move a))
  | reached_husk a :
      Reached coll a -> Reached coll (snd (CollectionAdd_move a))
  | reached_execute a w r a' w' :
      Reached coll a -> CollectionAdd_execute a w = (r, a', w') ->
      Reached coll a'.

(** What holds of every builder reached for [coll]. *)
Definition add_invariant (coll : Collection) (a : CollectionAdd) : Prop :=
  add_coll a = coll /\
  forall t, m_task (add_exec a) = Some t ->
    op_kind (state t) = ADD /\ op_coll (state t) = coll /\ op_docs (state t) <> [].

(* ------------------------------------------------------------------- *)
(** *** Observing a builder *)

(** A builder that can still be configured: not moved from, not
    executed. *)
Definition live (x : Executable) : bool :=
  match m_task x with
  | Some t => negb (executed t)
  | None => false
  end.

(** Does [execute] take the builder: it holds a task that was not executed,
    or was bound again since. *)
Definition accepts (x : Executable) : bool :=
  match m_task x with
  | Some t => negb (executed t && negb (rebound t))
  | None => false
  end.

(** The state a call leaves when it returns. *)
Definition state_after (m : M Executable This) (x : Executable)
  : option OpState :=
  match m x with
  | (Returned _, x') =>
      match m_task x' with Some t => Some (state t) | None => None end
  | _ => None
  end.

(** The request an execute would encode after the call. *)
Definition request_after (m : M Executable This) (x : Executable)
  : option Request :=
  match state_after m x with Some s => Some (encode s) | None => None end.

(** The calls that change a builder. *)
Inductive Call :=
  | CallSort (ord : string)
  | CallLimit (rows : N)
  | CallOffset (rows : N)
  | CallBind (p : string) (v : ExprValue)
  | CallUpdate (u : UpdateStep)
  | CallAdd (d : Doc).

Definition is_bind (c : Call) : bool :=
  match c with CallBind _ _ => true | _ => false end.

Definition call (c : Call) : M Executable This :=
  match c with
  | CallSort ord => do_sort ord
  | CallLimit rows => do_limit rows
  | CallOffset rows => do_offset rows
  | CallBind p v => do_bind p v
  | CallUpdate u => do_update u
  | CallAdd d => mutate (with_doc d)
  end.

(** Calls made one after the other, the caller catching what they throw:
    the calls that returned, and the builder at the end. *)
Fixpoint calls (cs : list Call) (x : Executable) : list Call * Executable :=
  match cs with
  | [] => ([], x)
  | c :: cs' =>
      match call c x with
      | (Returned _, x') =>
          let (done, x'') := calls cs' x' in (c :: done, x'')
      | (_, x') => calls cs' x'
      end
  end.

(** The bindings of the calls that took effect on an executed builder,
    applied in their order. *)
Definition rebind (done : list Call) (s : OpState) : OpState :=
  fold_left (fun s' c => match c with
                         | CallBind p v => with_binding p v s'
                         | _ => s'
                         end) done s.

End Values.

Arguments Doc : clear implicits.
Arguments World : clear implicits.
Arguments Result : clear implicits.
Arguments CollectionAdd : clear implicits.
Arguments CollectionAddBase : clear implicits.
Arguments Call : clear implicits.
Arguments AddStep : clear implicits.
Arguments UpdateStep : clear implicits.
Arguments OpState : clear implicits.
Arguments Request : clear implicits.
Arguments Task : clear implicits.
Arguments Executable : clear implicits.

End Crud.

(* ===================================================================== *)
(** ** A concrete setting *)
(* ===================================================================== *)

Module Sample.
Import Core Crud.

(** Expression values, after the variants the spec lists (no floating
    point). *)
Inductive Value :=
  | VNull
  | VBool (b : bool)
  | VInt (z : Z)
  | VUInt (n : N)
  | VText (s : string)
  | VParam (name : string)
  | VExpr (text : string).

Definition Collection : Type := string.
Definition DbDoc : Type := list (string * Value).
Definition Field : Type := string.
Definition Reply : Type := nat.

Definition value_placeholders (v : Value) : list string :=
  match v with
  | VParam name => [name]
  | _ => []
  end.

Definition emit (name : string) : list string :=
  match name with EmptyString => [] | _ => [name] end.

(** The names that follow a colon in a filter text; [cur] is the name being
    read, if any. *)
Fixpoint scan (cs : list ascii) (cur : option string) : list string :=
  match cs with
  | [] => match cur with Some name => emit name | None => [] end
  | c :: cs' =>
      let start := if Ascii.eqb c ":"%char then Some EmptyString else None in
      match cur with
      | Some name =>
          if is_alpha_ c || is_digit c
          then scan cs' (Some (name ++ String c EmptyString)%string)
          else emit name ++ scan cs' start
      | None => scan cs' start
      end
  end.

Definition placeholders (f : string) : list string :=
  scan (list_ascii_of_string f) None.

Abbreviation Request := (Crud.Request Collection DbDoc Value Field).
Abbreviation Executable := (Crud.Executable Collection DbDoc Value Field).
Abbreviation World := (Crud.World Collection DbDoc Value Field).
Abbreviation CollectionAdd := (Crud.CollectionAdd Collection DbDoc Value Field).

(** A session that answers every request with the number of its
    documents. *)
Definition submit (q : Request) : Downstream + Reply := inr (length (req_docs q)).

Definition world0 : World := mkWorld [] (fun _ => true).

Definition users : Collection := "users"%string.

Definition doc1 : Crud.Doc DbDoc := DocJson "{'a':1}"%string.
Definition doc2 : Crud.Doc DbDoc := DocTree [("a"%string, VInt 2)].

(** [users.add(doc1, doc2)]. *)
Definition added : option (Outcome CollectionAdd) :=
  option_map (fun f => f (mkCollectionAddBase users)) (add doc1 [doc2]).

Definition add12 : CollectionAdd :=
  mkCollectionAdd (fresh (mkOp ADD users None [] [] None None [doc1; doc2] ∅)) users.

(** [users.find("a > :x")]. *)
Definition found : Executable := find users (Some "a > :x"%string).

Definition execute (x : Executable) (w : World) :=
  Crud.execute placeholders value_placeholders submit x w.

(** [users.find("a > :x")] with [x] bound to 3, before and after its
    execute, and the wire after it. *)
Definition bound_state : Crud.OpState Collection DbDoc Value Field :=
  with_binding "x"%string (VInt 3) (empty_op FIND users (Some "a > :x"%string)).

Definition bound_find : Executable := fresh bound_state.

Definition executed_find : Executable :=
  mkExecutable (Some (mkTask bound_state true false)).

Definition world1 : World := mkWorld [encode bound_state] (fun _ => true).

(** Two keys in a container that converts to their list as text. *)
Definition two_keys : Sort.KeyList :=
  Sort.mkKeyList ["a ASC"%string; "b DESC"%string] "a ASC, b DESC"%string.

End Sample.

(* ===================================================================== *)
(** ** The chains a program can write *)
(* ===================================================================== *)

Module Chains.
Import Hierarchy.



(** The hooks and the set-up function the classes declare for themselves. *)
Definition is_hook (m : Method) : bool :=
  match m with
  | m_do_add | m_initialize | m_do_sort | m_do_limit | m_do_offset
  | m_do_set | m_do_unset | m_do_arrayInsert | m_do_arrayAppend
  | m_do_arrayDelete => true
  | _ => false
  end.










(** How often a method is called in a chain. *)
Definition occurrences (m : Method) (ms : list Method) : nat :=
  length (List.filter (Method_eqb m) ms).

(** The classes that hand out builders, and the classes a chain that starts
    on one of them passes through. *)
Definition facades : list Class :=
  [CollectionAddBase; CollectionFind; CollectionRemove; CollectionModifyBase].

Definition user_classes : list Class :=
  facades ++ CollectionAdd :: stage_classes.

End Chains.

(* ===================================================================== *)
(** ** Observing the calls of [do_sort] *)
(* ===================================================================== *)

Module Probe.
Import Core Sort.

(** An override of [do_sort] that records its key, and refuses the empty
    one. *)
Definition strict_sort (key : string) : M (list string) unit :=
  fun log =>
    match key with
    | EmptyString => (Thrown InvalidArgument, log)
    | _ => (Returned tt, log ++ [key])
    end.

(** The keys the last argument of a variadic [sort] passes to [do_sort]:
    itself if it selects a text overload, else its conversion once per
    element. *)
Definition keys_of_last {Ord} `{Iterable Ord} (a : SortArg Ord) : list string :=
  match a with
  | ArgString s | ArgCStr s => [s]
  | ArgOrd o => repeat (to_string o) (length (elements o))
  end.

(** Is the argument an iterable with no element? *)
Definition empty_iterable {Ord} `{Iterable Ord} (a : SortArg Ord) : bool :=
  match a with
  | ArgOrd o => match elements o with [] => true | _ => false end
  | _ => false
  end.

End Probe.

(* ===================================================================== *)
(** * Properties *)
(* ===================================================================== *)

Module HierarchyFacts.
Import Hierarchy.

Lemma Method_eqb_eq (a b : Method) : Method_eqb a b = true <-> a = b.
Proof. split; [destruct a, b; simpl; congruence | intros ->; destruct b; reflexivity]. Qed.

Ltac each_stage H :=
  unfold stage_classes in H; simpl in H;
  repeat (destruct H as [H | H]; [subst | ]); try contradiction.

(** A step from a stage class lands in a stage class. *)
Lemma step_closed (c c' : Class) (m : Method) :
  In c stage_classes -> step c m = Some c' -> In c' stage_classes.
Proof.
  intros Hc Hs. each_stage Hc; destruct m; vm_compute in Hs;
    try discriminate; injection Hs as <-; vm_compute; tauto.
Qed.

(** The method called is not below the floor of the class. *)
Lemma step_floor (c c' : Class) (m : Method) :
  In c stage_classes -> step c m = Some c' -> floor c <= rank m.
Proof.
  intros Hc Hs. each_stage Hc; destruct m; vm_compute in Hs;
    try discriminate; vm_compute; repeat constructor.
Qed.

(** After [m], only what may come after [m] is exposed. *)
Lemma step_raises (c c' : Class) (m : Method) :
  In c stage_classes -> step c m = Some c' ->
  rank m + (if repeatable m then 0 else 1) <= floor c'.
Proof.
  intros Hc Hs. each_stage Hc; destruct m; vm_compute in Hs;
    try discriminate; injection Hs as <-; vm_compute; repeat constructor.
Qed.

Lemma run_floor (ms : list Method) : forall c c',
  In c stage_classes -> run c ms = Some c' ->
  Forall (fun m => floor c <= rank m) ms.
Proof.
  induction ms as [|m ms IH]; intros c c' Hc Hr; [constructor|].
  simpl in Hr. destruct (step c m) as [c1|] eqn:Hs; [|discriminate].
  pose proof (step_floor _ _ _ Hc Hs) as Hf.
  pose proof (step_raises _ _ _ Hc Hs) as Hup.
  pose proof (step_closed _ _ _ Hc Hs) as Hc1.
  constructor; [exact Hf|].
  specialize (IH _ _ Hc1 Hr).
  eapply Forall_impl; [exact IH|]. simpl. intros; lia.
Qed.

Lemma run_ordered (ms : list Method) : forall c c',
  In c stage_classes -> run c ms = Some c' -> ordered ms = true.
Proof.
  induction ms as [|m ms IH]; intros c c' Hc Hr; [reflexivity|].
  simpl in Hr. destruct (step c m) as [c1|] eqn:Hs; [|discriminate].
  pose proof (step_raises _ _ _ Hc Hs) as Hup.
  pose proof (step_closed _ _ _ Hc Hs) as Hc1.
  simpl. apply andb_true_iff. split; [|eauto].
  apply forallb_forall. intros b Hb.
  pose proof (run_floor _ _ _ Hc1 Hr) as Hall.
  rewrite List.Forall_forall in Hall. specialize (Hall b Hb).
  unfold before. destruct (repeatable m); simpl.
  - destruct (Nat.ltb_spec (rank m) (rank b)); [reflexivity|].
    simpl. apply Nat.eqb_eq. lia.
  - apply orb_true_iff. left. apply Nat.ltb_lt. lia.
Qed.

(** Only [limit] leads to a class that exposes [offset]. *)
Lemma offset_exposed_by_limit (c c' : Class) (m : Method) :
  In c stage_classes -> step c m = Some c' ->
  step c' m_offset <> None -> m = m_limit.
Proof.
  intros Hc Hs Ho. each_stage Hc; destruct m; vm_compute in Hs;
    try discriminate; try reflexivity; injection Hs as <-;
    exfalso; apply Ho; reflexivity.
Qed.

Lemma run_offset_follows_limit (ms : list Method) : forall c c' prev,
  In c stage_classes -> run c ms = Some c' ->
  (step c m_offset <> None -> prev = Some m_limit) ->
  offset_follows_limit prev ms = true.
Proof.
  induction ms as [|m ms IH]; intros c c' prev Hc Hr Hprev; [reflexivity|].
  simpl in Hr. destruct (step c m) as [c1|] eqn:Hs; [|discriminate].
  cbn [offset_follows_limit]. apply andb_true_iff. split.
  - destruct m; try reflexivity.
    rewrite Hprev; [reflexivity | congruence].
  - apply (IH c1 c'); [eapply step_closed; eassumption | exact Hr |].
    intros Ho. f_equal. eapply offset_exposed_by_limit; eassumption.
Qed.

Lemma offset_free_step (c c' : Class) (m : Method) :
  In c offset_free -> step c m = Some c' -> In c' offset_free /\ m <> m_offset.
Proof.
  intros Hc Hs. unfold offset_free in Hc. simpl in Hc.
  repeat (destruct Hc as [Hc | Hc]; [subst | ]); try contradiction;
    destruct m; vm_compute in Hs; try discriminate; injection Hs as <-;
    (split; [vm_compute; tauto | discriminate]).
Qed.

Lemma offset_free_run (ms : list Method) : forall c c',
  In c offset_free -> run c ms = Some c' -> ~ In m_offset ms.
Proof.
  induction ms as [|m ms IH]; intros c c' Hc Hr; [intros []|].
  simpl in Hr. destruct (step c m) as [c1|] eqn:Hs; [|discriminate].
  destruct (offset_free_step _ _ _ Hc Hs) as [Hc1 Hm].
  intros [Heq | Hin]; [congruence | exact (IH _ _ Hc1 Hr Hin)].
Qed.

Lemma surface_step (c : Class) (m : Method) :
  In m (surface c) <-> step c m <> None.
Proof.
  unfold surface, step. split.
  - intros Hin. apply in_map_iff in Hin as (d & <- & Hd).
    apply filter_In in Hd as [Hd Hpub].
    destruct (List.find _ (members_of c)) eqn:Hf; [discriminate|].
    eapply find_none in Hf; [|exact Hd]. simpl in Hf.
    rewrite Hpub in Hf. rewrite (proj2 (Method_eqb_eq _ _) eq_refl) in Hf.
    discriminate.
  - destruct (List.find _ (members_of c)) as [d|] eqn:Hf; [|congruence].
    intros _. apply find_some in Hf as [Hd Hq].
    apply andb_true_iff in Hq as [Hn Hpub]. apply Method_eqb_eq in Hn.
    apply in_map_iff. exists d. split; [exact Hn|].
    apply filter_In. split; assumption.
Qed.

(** [CollectionSort<R,H>] derives from [H]: what [H] exposes, the
    instantiation exposes too (its own [sort] and [do_sort] hide inherited
    members of these names). *)
Lemma CollectionSort_inherits (R H : Class) (m : Method) :
  In m (surface H) -> m <> m_sort -> m <> m_do_sort ->
  In m (surface (CollectionSort R H)).
Proof.
  unfold surface. intros Hin Hs Hd.
  apply in_map_iff in Hin as (d & <- & Hin).
  apply filter_In in Hin as [Hin Hpub].
  apply in_map_iff. exists d. split; [reflexivity|].
  apply filter_In. split; [|exact Hpub].
  change (members_of (CollectionSort R H))
    with (CollectionSort_members R (members_of H)).
  unfold CollectionSort_members, derive.
  apply in_or_app. right. apply filter_In. split.
  - simpl. rewrite app_nil_r. unfold inherit.
    apply in_map_iff. exists d. split; [reflexivity|].
    apply filter_In. split; [exact Hin|].
    destruct (macc d); simpl in *; congruence.
  - simpl. destruct (mname d); simpl; congruence.
Qed.

(** C3. Every call chain that type-checks on a Find, Remove or Modify
    builder keeps the stage order: update steps (Modify), then Sort, then
    Limit, then Offset, then Bind and Execute; [offset] occurs on Find only
    and only right after [limit], whose result is the Offset stage, and the
    result of [offset] is the Bind/Execute stage.  A chain out of this order
    does not type-check. *)
Theorem stage_order_enforced (b : Builder) (c : Class) (ms : list Method) :
  c = entry b \/ c = sort_stage b ->
  legal c ms ->
  ordered ms = true
  /\ offset_follows_limit None ms = true
  /\ (b <> Find -> ~ In m_offset ms)
  /\ step (sort_stage b) m_sort = Some (limit_stage b)
  /\ step (limit_stage Find) m_limit = Some Offset
  /\ step Offset m_offset = Some BindExec
  /\ step (limit_stage Remove) m_limit = Some BindExec
  /\ step (limit_stage Modify) m_limit = Some BindExec
  /\ step BindExec m_bind = Some BindExec
  /\ step BindExec m_execute = Some Result.
Proof.
  intros Hc [c' Hr].
  assert (Hst : In c stage_classes).
  { destruct Hc as [-> | ->]; destruct b; vm_compute; tauto. }
  split; [eapply run_ordered; eassumption|].
  split.
  { eapply run_offset_follows_limit; [exact Hst | exact Hr |].
    intros Ho. exfalso. apply Ho.
    destruct Hc as [-> | ->]; destruct b; reflexivity. }
  split.
  { intros Hb. eapply offset_free_run; [|exact Hr].
    destruct Hc as [-> | ->]; destruct b; try congruence; vm_compute; tauto. }
  destruct b; repeat split; reflexivity.
Qed.

Lemma stage_order_enforced_witness :
  legal (entry Find) [m_sort; m_limit; m_offset; m_bind; m_bind; m_execute]
  /\ ordered [m_sort; m_limit; m_offset; m_bind; m_bind; m_execute] = true.
Proof.
  assert (H : legal (entry Find)
                [m_sort; m_limit; m_offset; m_bind; m_bind; m_execute]).
  { exists Result. reflexivity. }
  split; [exact H|].
  exact (proj1 (stage_order_enforced Find (entry Find) _ (or_introl eq_refl) H)).
Defined.

(** C9, as stated, fails: a chain that only skips forward need not
    type-check.  On Find, [offset] cannot be called before [limit]; on the
    builder [modify()] returns, no stage method can be called before an
    update step. *)
Lemma forward_skip_counterexample :
  ~ (forall b ms, forward_chain b ms = true -> legal (entry b) ms)
  /\ forward_chain Find [m_offset] = true
  /\ run (entry Find) [m_offset] = None
  /\ forward_chain Modify [m_limit] = true
  /\ run (entry Modify) [m_limit] = None.
Proof.
  split; [|repeat split; reflexivity].
  intros H. destruct (H Find [m_offset] eq_refl) as [c Hc]. discriminate Hc.
Qed.

(** C9, amended. The Sort stage can be skipped: [CollectionSort<R,H>]
    derives from [H], so the class that exposes [sort] exposes all that the
    Limit stage does, and [limit], [bind] and [execute] type-check without a
    [sort] before them, as does [offset] right after [limit] on Find.  A
    chain with a backward step does not type-check; neither does [offset]
    before [limit] on Find, nor a stage method on the builder that
    [modify()] returns before an update step. *)
Theorem sort_stage_skippable (b : Builder) (ms : list Method) :
  legal (sort_stage b) ms ->
  ordered ms = true
  /\ (forall R H m, In m (surface H) -> m <> m_sort -> m <> m_do_sort ->
        In m (surface (CollectionSort R H)))
  /\ (forall m, In m (surface (limit_stage b)) -> In m (surface (sort_stage b)))
  /\ legal (sort_stage b) [m_limit]
  /\ legal (sort_stage b) [m_bind]
  /\ legal (sort_stage b) [m_execute]
  /\ legal (sort_stage b) [m_limit; m_bind; m_execute]
  /\ legal (sort_stage Find) [m_limit; m_offset; m_bind; m_execute]
  /\ step (sort_stage Find) m_offset = None
  /\ step (limit_stage Find) m_offset = None
  /\ (forall m, In m (stage_methods Modify) -> step (entry Modify) m = None)
  /\ legal (entry Modify) [m_set; m_limit; m_bind; m_execute].
Proof.
  intros [c' Hr].
  split.
  { eapply run_ordered; [|exact Hr]. destruct b; vm_compute; tauto. }
  split; [exact CollectionSort_inherits|].
  split.
  { intros m Hm. destruct b; vm_compute in Hm; vm_compute; tauto. }
  repeat split; try (destruct b; eexists; reflexivity).
  intros m Hm. simpl in Hm.
  repeat (destruct Hm as [<- | Hm]; [reflexivity|]). contradiction.
Qed.

Lemma sort_stage_skippable_witness :
  legal (sort_stage Remove) [m_limit; m_execute]
  /\ ordered [m_limit; m_execute] = true.
Proof.
  assert (H : legal (sort_stage Remove) [m_limit; m_execute]).
  { exists Result. reflexivity. }
  split; [exact H|].
  exact (proj1 (sort_stage_skippable Remove _ H)).
Defined.

End HierarchyFacts.

Module SortFacts.
Import Core Sort.
Local Open Scope crud_scope.

Lemma bind_assoc {S A B C} (m : M S A) (k : A -> M S B) (h : B -> M S C) (s : S) :
  Core.and_then (Core.and_then m k) h s = Core.and_then m (fun a => Core.and_then (k a) h) s.
Proof. unfold Core.and_then. destruct (m s) as [[a| |] s']; reflexivity. Qed.

Lemma bind_ext {S A B} (m : M S A) (k1 k2 : A -> M S B) (s : S) :
  (forall a s', k1 a s' = k2 a s') -> Core.and_then m k1 s = Core.and_then m k2 s.
Proof.
  intros Hk. unfold Core.and_then. destruct (m s) as [[a| |] s']; [apply Hk| |];
    reflexivity.
Qed.

Section Generic.
Context {Obj R Ord : Type} `{Iterable Ord}.
Variable do_sort : string -> M Obj R.

(** The loop of the template overload calls [do_sort] on the converted
    iterable, once per element. *)
Lemma sort_loop_repeat (ord : Ord) (els : list El) : forall ret s,
  sort_loop do_sort ord els ret s
  = do_sort_seq do_sort (repeat (to_string ord) (length els)) ret s.
Proof.
  induction els as [|el els IH]; intros ret s; [reflexivity|].
  simpl. unfold Core.and_then. destruct (do_sort (to_string ord) s) as [[r| |] s'];
    [apply IH | reflexivity | reflexivity].
Qed.

(** The pointer is null after the loop exactly when there was no
    element. *)
Lemma sort_loop_pointer (ord : Ord) (els : list El) : forall ret s,
  fst (sort_loop do_sort ord els ret s) = Returned None
  -> els = [] /\ ret = None.
Proof.
  induction els as [|el els IH]; intros ret s.
  - simpl. intros [= ->]. split; reflexivity.
  - simpl. unfold Core.and_then.
    destruct (do_sort (to_string ord) s) as [[r| |] s']; simpl;
      [|discriminate|discriminate].
    intros Hp. apply IH in Hp as [_ Hp]. discriminate.
Qed.

Lemma sort_loop_defined (ord : Ord) (els : list El) :
  (forall k s, fst (do_sort k s) <> NullDeref) ->
  forall ret s, fst (sort_loop do_sort ord els ret s) <> NullDeref.
Proof.
  intros Hdef. induction els as [|el els IH]; intros ret s.
  - simpl. discriminate.
  - simpl. unfold Core.and_then. specialize (Hdef (to_string ord) s).
    destruct (do_sort (to_string ord) s) as [[r| |] s']; simpl in *;
      [apply IH | discriminate | congruence].
Qed.

(** The variadic overload with text arguments is the sequence of the
    [do_sort] calls, one per key, in the order of the arguments. *)
Lemma sort_variadic_text (rest : list (SortArg Ord)) : forall ord ret s,
  forallb is_text (ord :: rest) = true ->
  sort_variadic do_sort ord rest s
  = (p <- do_sort_seq do_sort (map (as_key (Ord := Ord)) (ord :: rest)) ret ;;
     deref p) s.
Proof.
  induction rest as [|next rest IH]; intros ord ret s Ht.
  - cbn [map do_sort_seq sort_variadic]. rewrite bind_assoc.
    destruct ord as [k|k|o]; simpl in Ht; try discriminate;
      cbn [sort1 as_key]; unfold sort_string, sort_cstr, Core.and_then;
      destruct (do_sort k s) as [[r| |] s']; reflexivity.
  - cbn [forallb] in Ht. apply andb_true_iff in Ht as [_ Ht].
    cbn [sort_variadic]. change (map as_key (ord :: next :: rest))
      with (as_key ord :: map (as_key (Ord := Ord)) (next :: rest)).
    cbn [do_sort_seq]. rewrite bind_assoc. apply bind_ext.
    intros r s'. apply IH. exact Ht.
Qed.

(** C8. The template overload of [sort] dereferences a null pointer
    exactly when the iterable has no element: the pointer starts null, the
    loop body does not run, [do_sort] is not called and the object is left
    as it was.  With one element or more the pointer is set before it is
    dereferenced. *)
Theorem sort_iterable_null_iff_empty (ord : Ord) (s : Obj) :
  (forall k s0, fst (do_sort k s0) <> NullDeref) ->
  (fst (sort_iterable do_sort ord s) = NullDeref <-> elements ord = [])
  /\ (elements ord = [] -> sort_iterable do_sort ord s = (NullDeref, s))
  /\ (fst (sort_loop do_sort ord (elements ord) None s) = Returned None
      <-> elements ord = []).
Proof.
  intros Hdef.
  assert (Hempty : elements ord = [] ->
                   sort_iterable do_sort ord s = (NullDeref, s)).
  { intros He. unfold sort_iterable. rewrite He. reflexivity. }
  assert (Hptr : fst (sort_loop do_sort ord (elements ord) None s)
                 = Returned None <-> elements ord = []).
  { split; [intros Hp; apply (sort_loop_pointer _ _ _ _ Hp)|].
    intros ->. reflexivity. }
  split; [|split; assumption].
  split; [|intros He; rewrite (Hempty He); reflexivity].
  unfold sort_iterable, Core.and_then.
  pose proof (sort_loop_defined ord (elements ord) Hdef None s) as Hnd.
  destruct (sort_loop do_sort ord (elements ord) None s)
    as [[[r|]| |] s'] eqn:Hl; simpl in *; try discriminate; try congruence.
  intros _. apply Hptr. reflexivity.
Qed.

End Generic.

End SortFacts.

Module CrudFacts.
Import Core Crud.
Local Open Scope crud_scope.

Lemma catch_and_wrap_id {A} (o : Outcome A) : catch_and_wrap o = o.
Proof. destruct o; reflexivity. Qed.

Lemma obind_Returned {A} (o : Outcome A) : obind o (fun a => Returned a) = o.
Proof. destruct o; reflexivity. Qed.

(** An integer argument arrives as an [unsigned]: in range, and unchanged
    if it was in range. *)
Lemma to_unsigned_range (z : Z) : (to_unsigned z <= unsigned_max)%N.
Proof.
  unfold to_unsigned, unsigned_max.
  pose proof (Z.mod_pos_bound z 4294967296 eq_refl) as [Hlo Hhi].
  apply N2Z.inj_le. rewrite Z2N.id by exact Hlo. simpl. lia.
Qed.

Lemma to_unsigned_id (z : Z) :
  (0 <= z <= 4294967295)%Z -> to_unsigned z = Z.to_N z.
Proof.
  intros Hz. unfold to_unsigned. rewrite Z.mod_small by lia. reflexivity.
Qed.

Example to_unsigned_wraps : to_unsigned (-1) = unsigned_max.
Proof. reflexivity. Qed.

Section Values.
Context {Collection DbDoc ExprValue Field Reply : Type}.
Variable placeholders : string -> list string.
Variable value_placeholders : ExprValue -> list string.

Local Abbreviation OpState := (Crud.OpState Collection DbDoc ExprValue Field).
Local Abbreviation Executable := (Crud.Executable Collection DbDoc ExprValue Field).
Local Abbreviation Task := (Crud.Task Collection DbDoc ExprValue Field).
Local Abbreviation Request := (Crud.Request Collection DbDoc ExprValue Field).
Local Abbreviation World := (Crud.World Collection DbDoc ExprValue Field).
Local Abbreviation CollectionAdd := (Crud.CollectionAdd Collection DbDoc ExprValue Field).
Local Abbreviation CollectionAddBase := (Crud.CollectionAddBase Collection).
Local Abbreviation Doc := (Crud.Doc DbDoc).
Local Abbreviation Call := (Crud.Call DbDoc ExprValue Field).
Local Abbreviation AddStep := (Crud.AddStep DbDoc).
Local Abbreviation add_instantiates :=
  (@Crud.add_instantiates Collection DbDoc ExprValue Field).
Local Abbreviation add_step := (@Crud.add_step Collection DbDoc ExprValue Field).
Local Abbreviation add_run := (@Crud.add_run Collection DbDoc ExprValue Field).

Variable submit : Request -> Downstream + Reply.

Local Abbreviation execute := (Crud.execute placeholders value_placeholders submit).
Local Abbreviation CollectionAdd_execute :=
  (Crud.CollectionAdd_execute placeholders value_placeholders submit).
Local Abbreviation Reached :=
  (Crud.Reached placeholders value_placeholders submit).

Lemma Executable_eta (x : Executable) : mkExecutable (m_task x) = x.
Proof. destruct x; reflexivity. Qed.

Lemma live_task (x : Executable) :
  live x = true -> exists t, m_task x = Some t /\ executed t = false.
Proof.
  unfold live. destruct (m_task x) as [t|]; [|discriminate].
  intros Ht. exists t. split; [reflexivity|].
  destruct (executed t); [discriminate | reflexivity].
Qed.

(** A mutation of a live builder returns and applies the change. *)
Lemma mutate_live (f : OpState -> OpState) (x : Executable) (t : Task) :
  m_task x = Some t -> executed t = false ->
  mutate f x
  = (Returned this, mkExecutable (Some (mkTask (f (state t)) false (rebound t)))).
Proof. intros Ht He. unfold mutate. rewrite Ht, He. reflexivity. Qed.

(** A mutation that is refused leaves the builder as it was. *)
Lemma mutate_refused (f : OpState -> OpState) (x : Executable) :
  live x = false -> mutate f x = (Thrown StageMisuse, x).
Proof.
  unfold live, mutate. destruct (m_task x) as [t|]; [|reflexivity].
  destruct (executed t); [reflexivity | discriminate].
Qed.

(** *** Adding documents *)

Lemma CollectionAdd_do_add_live (d : Doc) (a : CollectionAdd) (t : Task) :
  m_task (add_exec a) = Some t -> executed t = false ->
  CollectionAdd_do_add d a
  = Returned (mkCollectionAdd
                (mkExecutable (Some (mkTask (with_doc d (state t)) false (rebound t))))
                (add_coll a)).
Proof.
  intros Ht He. unfold CollectionAdd_do_add.
  rewrite (mutate_live _ _ _ Ht He). reflexivity.
Qed.

Lemma CollectionAdd_do_add_inv (d : Doc) (a a' : CollectionAdd) :
  CollectionAdd_do_add d a = Returned a' ->
  exists t, m_task (add_exec a) = Some t /\ executed t = false
    /\ a' = mkCollectionAdd
              (mkExecutable (Some (mkTask (with_doc d (state t)) false (rebound t))))
              (add_coll a).
Proof.
  unfold CollectionAdd_do_add, mutate.
  destruct (m_task (add_exec a)) as [t|] eqn:Ht; [|discriminate].
  destruct (executed t) eqn:He; [discriminate|].
  intros [= <-]. exists t. repeat split; assumption.
Qed.

(** The constructor called by [CollectionAddBase::do_add]. *)
Lemma CollectionAdd_new_eq (coll : Collection) (d : Doc) :
  CollectionAdd_new coll d
  = Returned (mkCollectionAdd
                (fresh (mkOp ADD coll None [] [] None None [d] ∅)) coll)
  :> Outcome CollectionAdd.
Proof. reflexivity. Qed.

(** On a [CollectionAdd] only the one-document [add] instantiates. *)
Lemma CollectionAdd_add_eq (d : Doc) (rest : list Doc) :
  CollectionAdd_add d rest
  = match rest with
    | [] => Some (add1 d)
    | _ :: _ => None
    end
  :> option (CollectionAdd -> Outcome CollectionAdd).
Proof.
  destruct rest as [|next rest]; [reflexivity|].
  cbn [CollectionAdd_add]. unfold add_first.
  cbn [hand_back CollectionAdd_interface].
  destruct (CollectionAdd_add next rest); reflexivity.
Qed.

Lemma add_on_CollectionAdd (d : Doc) (rest : list Doc) :
  add (Self := CollectionAdd) d rest
  = match rest with
    | [] => Some (add1 d)
    | _ :: _ => None
    end
  :> option (CollectionAdd -> Outcome CollectionAdd).
Proof.
  destruct rest as [|next rest]; [reflexivity|].
  unfold add, add_first. cbn [hand_back CollectionAdd_interface].
  destruct (CollectionAdd_add next rest); reflexivity.
Qed.

(** A chain of [add] calls on a live builder appends the documents in the
    order of the calls. *)
Lemma with_docs_eq (ds : list Doc) : forall k c f u so l o dd b,
  fold_left (fun s d => with_doc d s) ds
            (mkOp (Collection := Collection) (ExprValue := ExprValue)
                  (Field := Field) k c f u so l o dd b)
  = mkOp k c f u so l o (dd ++ ds) b.
Proof.
  induction ds as [|d ds IH]; intros; simpl.
  - rewrite app_nil_r. reflexivity.
  - unfold with_doc at 2. simpl. rewrite IH, <- app_assoc. reflexivity.
Qed.

Lemma add_chain_live (ds : list Doc) : forall (a : CollectionAdd) (t : Task),
  m_task (add_exec a) = Some t -> executed t = false ->
  add_chain ds a
  = Returned (mkCollectionAdd
                (mkExecutable
                   (Some (mkTask (fold_left (fun s d => with_doc d s) ds (state t))
                                 false (rebound t))))
                (add_coll a)).
Proof.
  induction ds as [|d ds IH]; intros a t Ht He.
  - simpl. destruct a as [[x] c], t as [st e r]. simpl in *. subst. reflexivity.
  - cbn [add_chain]. unfold add1. cbn [do_add CollectionAdd_interface].
    rewrite (CollectionAdd_do_add_live d a t Ht He). cbn [obind].
    erewrite IH; [|reflexivity|reflexivity]. reflexivity.
Qed.

Lemma add_chain_invariant (coll : Collection) (ds : list Doc) :
  forall a a' : CollectionAdd,
  add_chain ds a = Returned a' ->
  (ds <> [] \/ add_invariant coll a) -> add_coll a = coll ->
  (forall t, m_task (add_exec a) = Some t ->
     op_kind (state t) = ADD /\ op_coll (state t) = coll) ->
  add_invariant coll a'.
Proof.
  induction ds as [|d ds IH]; intros a a' Hc Hne Hcoll Hst.
  - simpl in Hc. injection Hc as <-. destruct Hne as [[]|Hi]; [reflexivity | exact Hi].
  - cbn [add_chain] in Hc. unfold add1 in Hc.
    cbn [do_add CollectionAdd_interface] in Hc.
    destruct (CollectionAdd_do_add d a) as [a1| |] eqn:Hd; try discriminate.
    cbn [obind] in Hc.
    apply CollectionAdd_do_add_inv in Hd as (t & Ht & He & ->).
    destruct (Hst t Ht) as [Hk Hco].
    apply (IH _ _ Hc); simpl.
    + right. split; [exact Hcoll|]. simpl. intros t' [= <-]. simpl.
      repeat split; try assumption. intros Happ.
      apply app_eq_nil in Happ as [_ Hnil]. discriminate.
    + exact Hcoll.
    + intros t' [= <-]. simpl. split; assumption.
Qed.

(** On the entry builder [add] instantiates with one document and with
    two: with more, the [add(rest...)] inside is the several-document one on
    a [CollectionAdd]. *)
Lemma CollectionAddBase_add_eq (d : Doc) (rest : list Doc) :
  add (Self := CollectionAddBase) d rest
  = match rest with
    | [] => Some (add1 d)
    | [next] =>
        Some (fun self =>
                catch_and_wrap
                  (obind (do_add d self) (fun a =>
                   obind (add1 next a) (fun a' =>
                   Returned (fst (CollectionAdd_move a'))))))
    | _ :: _ :: _ => None
    end
  :> option (CollectionAddBase -> Outcome CollectionAdd).
Proof.
  destruct rest as [|next [|third rest]]; try reflexivity.
  unfold add, add_first. rewrite CollectionAdd_add_eq. reflexivity.
Qed.

(** [coll.add(d, rest...)], where it compiles, returns the builder with
    exactly these documents. *)
Lemma CollectionAddBase_add_runs (coll : Collection) (d : Doc) (rest : list Doc)
    (f : CollectionAddBase -> Outcome CollectionAdd) :
  add d rest = Some f ->
  f (mkCollectionAddBase coll)
  = Returned (mkCollectionAdd
                (fresh (mkOp ADD coll None [] [] None None (d :: rest) ∅)) coll).
Proof.
  rewrite CollectionAddBase_add_eq.
  destruct rest as [|next [|third rest]]; intros [= <-]; reflexivity.
Qed.

Lemma entry_invariant (coll : Collection) (ds : list Doc) :
  ds <> [] ->
  add_invariant coll
    (mkCollectionAdd (fresh (mkOp ADD coll None [] [] None None ds ∅)) coll
     : CollectionAdd).
Proof.
  intros Hne. split; [reflexivity|]. simpl. intros t [= <-]. simpl. tauto.
Qed.

Lemma execute_invariant (coll : Collection) (a a' : CollectionAdd) (w w' : World)
    (r : Outcome (Result Reply)) :
  add_invariant coll a -> CollectionAdd_execute a w = (r, a', w') ->
  add_invariant coll a'.
Proof.
  intros [Hcoll Hst]. unfold Crud.CollectionAdd_execute, Crud.execute.
  pose proof Hst as Hkeep.
  destruct (m_task (add_exec a)) as [t|] eqn:Ht.
  - destruct (executed t && negb (rebound t)).
    + intros [= _ <- _]. split; [exact Hcoll|]. simpl. rewrite Ht. exact Hst.
    + destruct (validate _ _ _ _).
      * intros [= _ <- _]. split; [exact Hcoll|]. simpl. rewrite Ht. exact Hst.
      * destruct (submit _); intros [= _ <- _]; (split; [exact Hcoll|]); simpl.
        -- rewrite Ht. exact Hst.
        -- intros t' [= <-]. simpl. apply Hst. reflexivity.
  - intros [= _ <- _]. split; [exact Hcoll|]. simpl. rewrite Ht. exact Hst.
Qed.

(** Every builder reached for [coll] keeps the invariant. *)
Lemma Reached_invariant (coll : Collection) (a : CollectionAdd) :
  Reached coll a -> add_invariant coll a.
Proof.
  induction 1 as [d rest f a Hf Ha | a d rest f a' _ IH Hf Ha | a _ IH | a _ IH
                  | a w r a' w' _ IH Hx].
  - rewrite (CollectionAddBase_add_runs coll d rest f Hf) in Ha.
    injection Ha as <-. apply entry_invariant. discriminate.
  - rewrite add_on_CollectionAdd in Hf.
    destruct rest as [|next rest]; [|discriminate]. injection Hf as <-.
    assert (Hc : add_chain [d] a = Returned a').
    { cbn [add_chain]. rewrite Ha. reflexivity. }
    destruct IH as [Hcoll Hst].
    eapply add_chain_invariant; [exact Hc | left; discriminate | exact Hcoll |].
    intros t Ht. destruct (Hst t Ht) as (? & ? & ?). split; assumption.
  - destruct IH as [Hcoll Hst]. split; [exact Hcoll|]. exact Hst.
  - destruct IH as [Hcoll Hst]. split; [exact Hcoll|]. simpl. discriminate.
  - eapply execute_invariant; eassumption.
Qed.

(** One-document calls one after the other compile for any number of
    documents, and return the builder that holds them in the order of the
    calls. *)
Lemma sequential_add_runs (coll : Collection) (d : Doc) (ds : list Doc) :
  obind (add1 d (mkCollectionAddBase coll)) (add_chain ds)
  = Returned (mkCollectionAdd
                (fresh (mkOp ADD coll None [] [] None None (d :: ds) ∅)) coll)
  :> Outcome CollectionAdd.
Proof.
  unfold add1. cbn [do_add CollectionAddBase_interface base_coll].
  rewrite CollectionAdd_new_eq. cbn [obind].
  erewrite add_chain_live; [|reflexivity|reflexivity].
  cbn. rewrite with_docs_eq. reflexivity.
Qed.

(** A builder with any documents, at least one, is reached. *)
Lemma Reached_documents (coll : Collection) (d : Doc) (ds : list Doc) :
  Reached coll
    (mkCollectionAdd (fresh (mkOp ADD coll None [] [] None None (d :: ds) ∅)) coll
     : CollectionAdd).
Proof.
  induction ds as [|x ds IH] using rev_ind.
  - eapply reached_entry with (d := d) (rest := []); reflexivity.
  - eapply reached_add with (d := x) (rest := []); [exact IH | reflexivity |].
    reflexivity.
Qed.

(** C1. An execute with no document cannot be written: the entry builder
    [CollectionAddBase] exposes [add] only, whose result is a
    [CollectionAdd], the class that exposes [execute]; and every builder a
    program reaches holds at least one document as long as it holds a
    state at all, so that its [execute] never fails for an empty batch. *)
Theorem empty_add_unrepresentable (coll : Collection) (a : CollectionAdd) :
  Reached coll a ->
  Hierarchy.surface Hierarchy.CollectionAddBase = [Hierarchy.m_add]
  /\ Hierarchy.step Hierarchy.CollectionAddBase Hierarchy.m_execute = None
  /\ Hierarchy.step Hierarchy.CollectionAddBase Hierarchy.m_add
     = Some Hierarchy.CollectionAdd
  /\ Hierarchy.step Hierarchy.CollectionAdd Hierarchy.m_execute
     = Some Hierarchy.Result
  /\ (forall ds, docs_of a = Some ds -> ds <> [])
  /\ (forall w, fst (fst (CollectionAdd_execute a w)) <> Thrown EmptyBatch).
Proof.
  intros Hr. apply Reached_invariant in Hr as [Hcoll Hst].
  repeat (split; [reflexivity|]).
  split.
  - intros ds. unfold docs_of.
    destruct (m_task (add_exec a)) as [t|]; [|discriminate].
    intros [= <-]. apply (Hst t eq_refl).
  - intros w. unfold Crud.CollectionAdd_execute, Crud.execute.
    destruct (m_task (add_exec a)) as [t|]; [|simpl; discriminate].
    destruct (Hst t eq_refl) as (Hk & _ & Hd).
    destruct (executed t && negb (rebound t)); [simpl; discriminate|].
    unfold validate. destruct (negb (alive w (op_coll (state t))));
      [simpl; discriminate|].
    unfold no_docs. destruct (op_docs (state t)); [congruence|].
    rewrite andb_false_r.
    destruct (negb (forallb _ _)); [simpl; discriminate|].
    destruct (submit _) as [[]|]; simpl; discriminate.
Qed.

(** C10. The move constructor keeps the collection and hands over the
    operation: the new builder has the [m_coll] and the task of the source,
    which is left without a task.  A builder reached for a collection by
    [add] calls, moves and executes addresses that collection, in its
    reference, in its state and in the request it puts on the wire. *)
Theorem move_keeps_collection (coll : Collection) (a other : CollectionAdd) :
  Reached coll a ->
  add_coll (fst (CollectionAdd_move other)) = add_coll other
  /\ m_task (add_exec (fst (CollectionAdd_move other))) = m_task (add_exec other)
  /\ docs_of (fst (CollectionAdd_move other)) = docs_of other
  /\ add_coll (snd (CollectionAdd_move other)) = add_coll other
  /\ moved_from (add_exec (snd (CollectionAdd_move other))) = true
  /\ add_coll a = coll
  /\ (forall t, m_task (add_exec a) = Some t ->
        op_kind (state t) = ADD /\ op_coll (state t) = coll)
  /\ (forall w req,
        wire (snd (CollectionAdd_execute a w)) = wire w ++ [req] ->
        req_collection req = coll).
Proof.
  intros Hr. apply Reached_invariant in Hr as [Hcoll Hst].
  repeat (split; [reflexivity|]).
  split; [exact Hcoll|]. split.
  - intros t Ht. destruct (Hst t Ht) as (? & ? & ?). split; assumption.
  - intros w req. unfold Crud.CollectionAdd_execute, Crud.execute.
    assert (Hsame : wire w = wire w ++ [req] -> req_collection req = coll).
    { intros Heq. exfalso. apply (f_equal (@length _)) in Heq.
      rewrite length_app in Heq. simpl in Heq. lia. }
    destruct (m_task (add_exec a)) as [t|]; [|exact Hsame].
    destruct (Hst t eq_refl) as (_ & Hco & _).
    destruct (executed t && negb (rebound t)); [exact Hsame|].
    destruct (validate _ _ _ _); [exact Hsame|].
    assert (Hnew : wire w ++ [encode (state t)] = wire w ++ [req]
                   -> req_collection req = coll).
    { intros Heq. apply app_inv_head in Heq. injection Heq as <-. exact Hco. }
    destruct (submit _); exact Hnew.
Qed.

(** C2. The several-document [add] does not do for every N what N single
    calls do.  Its body returns [std::move(...)] as an [R]; on a
    [CollectionAdd], where [R] is [CollectionAdd&], that is ill-formed, so
    [a.add(d1, d2, ...)] does not compile, and neither does
    [coll.add(d1, d2, d3, ...)], whose inner [add(rest...)] is that
    instantiation.  The single calls compile for any number of documents and
    leave them in the builder in their order.  What compiles of the
    several-document form is two documents on the entry builder, and there
    the call does what the single calls do. *)
Theorem variadic_add_ill_formed (coll : Collection) (d next : Doc)
    (rest : list Doc) :
  ((add (Self := CollectionAdd) d rest = None
    :> option (CollectionAdd -> Outcome CollectionAdd)) <-> rest <> [])
  /\ ((add (Self := CollectionAddBase) d rest = None
       :> option (CollectionAddBase -> Outcome CollectionAdd))
      <-> 2 <= length rest)
  /\ (exists b : CollectionAdd,
        obind (add1 d (mkCollectionAddBase coll)) (add_chain rest) = Returned b
        /\ docs_of b = Some (d :: rest))
  /\ exists (f : CollectionAddBase -> Outcome CollectionAdd) b,
       add (Self := CollectionAddBase) d [next] = Some f
       /\ f (mkCollectionAddBase coll) = Returned b
       /\ obind (add1 d (mkCollectionAddBase coll)) (add_chain [next])
          = Returned b
       /\ docs_of b = Some [d; next].
Proof.
  split; [|split; [|split]].
  - rewrite add_on_CollectionAdd. destruct rest; split; congruence.
  - rewrite CollectionAddBase_add_eq.
    destruct rest as [|r1 [|r2 rest]]; simpl; split; intros Hx;
      try discriminate; try reflexivity; lia.
  - eexists. split; [apply sequential_add_runs | reflexivity].
  - eexists. eexists. split; [reflexivity|]. repeat split.
Qed.

(** *** The chains of calls on an Add builder *)

Lemma add_instantiates_CollectionAdd (d : Doc) (rest : list Doc) :
  add_instantiates Hierarchy.CollectionAdd d rest
  = match rest with [] => true | _ :: _ => false end.
Proof.
  unfold Crud.add_instantiates. rewrite add_on_CollectionAdd.
  destruct rest; reflexivity.
Qed.

Lemma add_instantiates_CollectionAddBase (d : Doc) (rest : list Doc) :
  add_instantiates Hierarchy.CollectionAddBase d rest = (length rest <=? 1).
Proof.
  unfold Crud.add_instantiates. rewrite CollectionAddBase_add_eq.
  destruct rest as [|r1 [|r2 rest]]; reflexivity.
Qed.

Lemma add_run_Result (ks : list AddStep) :
  compiled (add_run Hierarchy.Result ks)
  = match ks with [] => true | _ :: _ => false end.
Proof. destruct ks as [|[first rest|] ks]; reflexivity. Qed.

Lemma add_run_CollectionAdd (ks : list AddStep) :
  compiled (add_run Hierarchy.CollectionAdd ks) = add_tail ks.
Proof.
  induction ks as [|k ks IH]; [reflexivity|].
  destruct k as [first rest|]; cbn [Crud.add_run Crud.add_step add_tail].
  - rewrite add_instantiates_CollectionAdd. destruct rest; [exact IH | reflexivity].
  - change (Hierarchy.step Hierarchy.CollectionAdd Hierarchy.m_execute)
      with (Some Hierarchy.Result).
    apply add_run_Result.
Qed.

(** X1. The chains of calls that compile on the entry builder of Add are
    exactly: no call, or an [add] with one or two documents, then any
    number of [add] calls with one document each, and then at most one
    [execute] with nothing after it. *)
Theorem add_calls_exact (ks : list AddStep) :
  is_Some (add_run Hierarchy.CollectionAddBase ks) <-> add_chain_shape ks = true.
Proof.
  assert (Hc : forall o : option Hierarchy.Class, is_Some o <-> compiled o = true).
  { intros [c|]; simpl; split; try discriminate; eauto.
    intros [c Hx]. discriminate. }
  rewrite Hc. destruct ks as [|[first rest|] ks]; cbn [Crud.add_run Crud.add_step add_chain_shape].
  - simpl. tauto.
  - rewrite add_instantiates_CollectionAddBase.
    destruct (length rest <=? 1); simpl; [|split; discriminate].
    change (Hierarchy.step Hierarchy.CollectionAddBase Hierarchy.m_add)
      with (Some Hierarchy.CollectionAdd).
    rewrite add_run_CollectionAdd. tauto.
  - simpl. split; discriminate.
Qed.

(** *** Sort keys *)

Lemma with_sorts_eq (ks : list string) : forall k c f u so l o dd b,
  fold_left (fun s key => with_sort key s) ks
            (mkOp (Collection := Collection) (DbDoc := DbDoc)
                  (ExprValue := ExprValue) (Field := Field) k c f u so l o dd b)
  = mkOp k c f u (so ++ ks) l o dd b.
Proof.
  induction ks as [|key ks IH]; intros; simpl.
  - rewrite app_nil_r. reflexivity.
  - unfold with_sort at 2. simpl. rewrite IH, <- app_assoc. reflexivity.
Qed.

Lemma do_sort_live (key : string) (x : Executable) (t : Task) :
  m_task x = Some t -> executed t = false -> is_blank key = false ->
  do_sort key x
  = (Returned this,
     mkExecutable (Some (mkTask (with_sort key (state t)) false (rebound t)))).
Proof.
  intros Ht He Hb. unfold do_sort. rewrite Hb. apply mutate_live; assumption.
Qed.

(** [do_sort] called for each key in turn on a live builder, with keys
    that are not blank: every call returns and appends its key. *)
Lemma do_sort_seq_live (ks : list string) : forall (x : Executable) (t : Task) ret,
  m_task x = Some t -> executed t = false ->
  forallb (fun key => negb (is_blank key)) ks = true ->
  Sort.do_sort_seq do_sort ks ret x
  = (Returned (match ks with [] => ret | _ => Some this end),
     mkExecutable
       (Some (mkTask (fold_left (fun s key => with_sort key s) ks (state t))
                     false (rebound t)))).
Proof.
  induction ks as [|key ks IH]; intros x t ret Ht He Hks.
  - simpl. destruct x as [m], t as [st e r]. simpl in *. subst. reflexivity.
  - cbn [forallb] in Hks. apply andb_true_iff in Hks as [Hk Hks].
    apply negb_true_iff in Hk.
    cbn [Sort.do_sort_seq]. unfold Core.and_then.
    rewrite (do_sort_live key x t Ht He Hk).
    erewrite IH; [|reflexivity|reflexivity|exact Hks].
    destruct ks; reflexivity.
Qed.

(** Keys passed as text, none of them blank, to a live builder: the
    variadic [sort] returns and appends every key in the order of the
    arguments, equal keys included, as do the single calls one after the
    other; the request carries the keys in that order. *)
Lemma sort_text_keys_in_order {Ord} `{Sort.Iterable Ord}
    (ord : Sort.SortArg Ord) (rest : list (Sort.SortArg Ord))
    (x : Executable) (t : Task) :
  m_task x = Some t -> executed t = false ->
  forallb Sort.is_text (ord :: rest) = true ->
  forallb (fun key => negb (is_blank key)) (map Sort.as_key (ord :: rest)) = true ->
  Sort.sort_variadic do_sort ord rest x
  = (Returned this,
     mkExecutable
       (Some (mkTask (fold_left (fun s key => with_sort key s)
                                (map Sort.as_key (ord :: rest)) (state t))
                     false (rebound t))))
  /\ (forall so,
        op_sort (state t) = so ->
        option_map op_sort (state_after (Sort.sort_variadic do_sort ord rest) x)
        = Some (so ++ map Sort.as_key (ord :: rest))
        /\ option_map req_sort (request_after (Sort.sort_variadic do_sort ord rest) x)
           = Some (so ++ map Sort.as_key (ord :: rest))).
Proof.
  intros Ht He Htext Hkeys.
  assert (Hrun : Sort.sort_variadic do_sort ord rest x
                 = (Returned this,
                    mkExecutable
                      (Some (mkTask (fold_left (fun s key => with_sort key s)
                                       (map Sort.as_key (ord :: rest)) (state t))
                                    false (rebound t))))).
  { rewrite (SortFacts.sort_variadic_text do_sort rest ord None x Htext).
    unfold Core.and_then. rewrite (do_sort_seq_live _ x t None Ht He Hkeys).
    reflexivity. }
  split; [exact Hrun|].
  intros so Hso. unfold request_after, state_after. rewrite Hrun. cbn [m_task state].
  destruct (state t) as [k c f u so' l o dd b]. simpl in Hso. subst so'.
  rewrite with_sorts_eq. split; reflexivity.
Qed.

(** *** Overwriting *)

(** C6. On a builder that can still be configured, [limit(a)] then
    [limit(b)] leaves the state that [limit(b)] alone leaves, with limit
    [b], in the state and in the request; so do two [offset] calls; and two
    [bind] calls for one valid name leave the value of the second. *)
Theorem last_write_wins (x : Executable) (a b : N) (p : string)
    (va vb : ExprValue) :
  live x = true ->
  valid_param_name p = true ->
  (state_after (limit a ;;; limit b) x
     = state_after (limit b) x
   /\ option_map op_limit
        (state_after (limit a ;;; limit b) x)
      = Some (Some b)
   /\ option_map req_limit
        (request_after (limit a ;;; limit b) x)
      = Some (Some b))
  /\ (state_after (offset a ;;; offset b) x
        = state_after (offset b) x
      /\ option_map op_offset
           (state_after (offset a ;;; offset b) x)
         = Some (Some b)
      /\ option_map req_offset
           (request_after (offset a ;;; offset b) x)
         = Some (Some b))
  /\ (state_after (bind p va ;;; bind p vb) x
        = state_after (bind p vb) x
      /\ option_map (fun s => op_bindings s !! p)
           (state_after (bind p va ;;; bind p vb) x)
         = Some (Some vb)
      /\ option_map (fun q => req_bindings q !! p)
           (request_after (bind p va ;;; bind p vb) x)
         = Some (Some vb)).
Proof.
  intros Hlive Hp. apply live_task in Hlive as (t & Ht & He).
  unfold request_after, state_after, limit, offset, bind, do_limit,
    do_offset, do_bind, Core.and_then, mutate.
  rewrite Ht, He, Hp. cbn [m_task executed state rebound].
  try rewrite Hp. cbn [m_task executed state rebound].
  destruct (state t) as [k c f u so l o dd bs].
  unfold with_limit, with_offset, with_binding. cbn.
  rewrite insert_insert_eq, lookup_insert_eq. repeat split; reflexivity.
Qed.

(** *** Single shot *)

(** A builder that [execute] does not take is refused with StageMisuse,
    and nothing is put on the wire. *)
Lemma execute_refused (y : Executable) (v : World) :
  accepts y = false -> execute y v = (Thrown StageMisuse, y, v).
Proof.
  unfold accepts, Crud.execute. destruct (m_task y) as [t|]; [|reflexivity].
  destruct (executed t && negb (rebound t)); [reflexivity | discriminate].
Qed.

(** A builder that [execute] takes does not fail with StageMisuse. *)
Lemma execute_taken (y : Executable) (v : World) :
  accepts y = true -> fst (fst (execute y v)) <> Thrown StageMisuse.
Proof.
  unfold accepts, Crud.execute. destruct (m_task y) as [t|]; [|discriminate].
  destruct (executed t && negb (rebound t)); [discriminate|]. intros _.
  unfold validate.
  destruct (negb (alive v (op_coll (state t)))); [simpl; discriminate|].
  destruct (is_add (op_kind (state t)) && no_docs (state t)); [simpl; discriminate|].
  destruct (negb (forallb _ _)); [simpl; discriminate|].
  destruct (submit _) as [[]|]; simpl; discriminate.
Qed.

(** What a successful [execute] did. *)
Lemma execute_returned (y y' : Executable) (v v' : World) (r : Result Reply) :
  execute y v = (Returned r, y', v') ->
  exists t, m_task y = Some t
    /\ accepts y = true
    /\ y' = mkExecutable (Some (mkTask (state t) true false))
    /\ v' = mkWorld (wire v ++ [encode (state t)]) (alive v)
    /\ result_id r = length (wire v).
Proof.
  unfold Crud.execute, accepts. destruct (m_task y) as [t|]; [|discriminate].
  destruct (executed t && negb (rebound t)); [discriminate|].
  destruct (validate _ _ _ _); [discriminate|].
  destruct (submit _) as [f|rep]; [discriminate|].
  intros [= <- <- <-]. exists t. repeat split.
Qed.

(** On an executed builder a call returns only if it is a [bind]; the
    builder is then marked as bound again.  Any other call throws and
    leaves the builder as it was. *)
Lemma call_executed (c : Call) (y : Executable) (t : Task) :
  m_task y = Some t -> executed t = true ->
  (is_bind c = true /\ exists t',
      call c y = (Returned this, mkExecutable (Some t'))
      /\ executed t' = true /\ rebound t' = true)
  \/ (exists e, call c y = (Thrown e, y)).
Proof.
  intros Ht He.
  assert (Hmut : forall f, exists e, mutate f y = (Thrown e, y)).
  { intros f. exists StageMisuse. unfold mutate. rewrite Ht, He. reflexivity. }
  destruct c as [ord|rows|rows|p v|u|d]; cbn [call];
    try (right; apply Hmut).
  - right. unfold do_sort. destruct (is_blank ord); [|apply Hmut].
    exists InvalidArgument. reflexivity.
  - unfold do_bind. destruct (valid_param_name p).
    + left. split; [reflexivity|]. rewrite Ht. eexists. split; [reflexivity|].
      simpl. rewrite He. split; reflexivity.
    + right. exists InvalidArgument. reflexivity.
Qed.

Lemma calls_executed (cs : list Call) : forall (y : Executable) (t : Task),
  m_task y = Some t -> executed t = true ->
  Forall (fun c => is_bind c = true) (fst (calls cs y))
  /\ exists t', m_task (snd (calls cs y)) = Some t'
       /\ executed t' = true
       /\ rebound t' = match fst (calls cs y) with
                       | [] => rebound t
                       | _ => true
                       end.
Proof.
  induction cs as [|c cs IH]; intros y t Ht He.
  - simpl. split; [constructor|]. exists t. repeat split; assumption.
  - cbn [calls].
    destruct (call_executed c y t Ht He) as [[Hb (t1 & Hc & He1 & Hr1)] | [e Hc]];
      rewrite Hc.
    + destruct (IH (mkExecutable (Some t1)) t1 eq_refl He1) as [Hall (t' & Ht' & He' & Hr')].
      destruct (calls cs (mkExecutable (Some t1))) as [done y']. simpl in *.
      split; [constructor; assumption|].
      exists t'. repeat split; try assumption.
      rewrite Hr'. destruct done; [exact Hr1 | reflexivity].
    + apply IH; assumption.
Qed.

(** A successful [execute] found the preconditions met. *)
Lemma execute_validated (y y' : Executable) (v v' : World) (r : Result Reply) :
  execute y v = (Returned r, y', v') ->
  exists t, m_task y = Some t
    /\ validate placeholders value_placeholders v (state t) = None.
Proof.
  unfold Crud.execute. destruct (m_task y) as [t|]; [|discriminate].
  destruct (executed t && negb (rebound t)); [discriminate|].
  destruct (validate _ _ _ _) eqn:Hv; [discriminate|].
  intros _. exists t. split; [reflexivity | exact Hv].
Qed.

(** On an executed builder a [bind] with a valid name returns and puts
    its value in the binding table; every other call is refused. *)
Lemma call_executed_state (c : Call) (y : Executable) (t : Task) :
  m_task y = Some t -> executed t = true ->
  (exists p v, c = CallBind p v /\ valid_param_name p = true
     /\ call c y
        = (Returned this,
           mkExecutable (Some (mkTask (with_binding p v (state t)) true true))))
  \/ ((exists e, call c y = (Thrown e, y))
      /\ forall p v, c = CallBind p v -> valid_param_name p = false).
Proof.
  intros Ht He.
  assert (Hmut : forall f, exists e, mutate f y = (Thrown e, y)).
  { intros f. exists StageMisuse. unfold mutate. rewrite Ht, He. reflexivity. }
  destruct c as [ord|rows|rows|p v|u|d]; cbn [call];
    try (right; split; [apply Hmut | discriminate]).
  - right. split; [|discriminate]. unfold do_sort.
    destruct (is_blank ord); [|apply Hmut]. exists InvalidArgument. reflexivity.
  - unfold do_bind. destruct (valid_param_name p) eqn:Hp.
    + left. exists p, v. split; [reflexivity|]. split; [exact Hp|].
      rewrite Ht, He. reflexivity.
    + right. split; [exists InvalidArgument; reflexivity|].
      intros p' v' [= <- _]. exact Hp.
Qed.

Lemma calls_executed_state (cs : list Call) : forall (y : Executable) (t : Task),
  m_task y = Some t -> executed t = true ->
  (exists t', m_task (snd (calls cs y)) = Some t'
     /\ state t' = rebind (fst (calls cs y)) (state t))
  /\ (forall p v, In (CallBind p v) cs -> valid_param_name p = true ->
        In (CallBind p v) (fst (calls cs y))).
Proof.
  induction cs as [|c cs IH]; intros y t Ht He.
  - simpl. split; [exists t; split; [exact Ht | reflexivity] | intros p v []].
  - cbn [calls].
    destruct (call_executed_state c y t Ht He)
      as [(p & v & -> & Hp & Hc) | [[e Hc] Hbad]]; rewrite Hc.
    + destruct (IH (mkExecutable (Some (mkTask (with_binding p v (state t)) true true)))
                  _ eq_refl eq_refl) as [(t' & Ht' & Hs') Hin].
      destruct (calls cs _) as [done y']. simpl in *. split.
      * exists t'. split; [exact Ht' | exact Hs'].
      * intros p' v' [Heq | Hcs] Hv; [left; exact Heq | right; eauto].
    + destruct (IH y t Ht He) as [Hstate Hin]. split; [exact Hstate|].
      intros p' v' [Heq | Hcs] Hv; [|eauto].
      rewrite (Hbad p' v' Heq) in Hv. discriminate.
Qed.

(** Binding again changes the binding table only, and what was bound stays
    bound. *)
Lemma rebind_keeps (done : list Call) : forall s : OpState,
  op_kind (rebind done s) = op_kind s
  /\ op_coll (rebind done s) = op_coll s
  /\ op_filter (rebind done s) = op_filter s
  /\ op_updates (rebind done s) = op_updates s
  /\ op_docs (rebind done s) = op_docs s
  /\ (forall p, bound s p = true -> bound (rebind done s) p = true).
Proof.
  induction done as [|c done IH]; intros s;
    [simpl; repeat split; trivial|].
  change (rebind (c :: done) s)
    with (rebind done (match c with
                       | CallBind p v => with_binding p v s
                       | _ => s
                       end)).
  destruct c as [ord|rows|rows|q v|u|d]; try apply IH.
  destruct (IH (with_binding q v s)) as (Hk & Hc & Hf & Hu & Hd & Hb).
  repeat split; try assumption.
  intros p Hp. apply Hb. unfold bound, with_binding in Hp |- *. simpl.
  destruct (decide (q = p)) as [->|Hne].
  - rewrite lookup_insert_eq. reflexivity.
  - rewrite lookup_insert_ne by exact Hne. exact Hp.
Qed.

(** The preconditions that held at an execute hold after binding again. *)
Lemma validate_rebind (w w' : World) (s : OpState) (done : list Call) :
  alive w' = alive w ->
  validate placeholders value_placeholders w s = None ->
  validate placeholders value_placeholders w' (rebind done s) = None.
Proof.
  intros Halive. destruct (rebind_keeps done s) as (Hk & Hc & Hf & Hu & Hd & Hb).
  unfold validate, no_docs, referenced. rewrite Halive, Hk, Hc, Hf, Hu, Hd.
  destruct (negb (alive w (op_coll s))); [discriminate|].
  destruct (is_add (op_kind s) && _); [discriminate|].
  destruct (forallb (bound s) _) eqn:Hall; [|discriminate].
  intros _. rewrite forallb_forall in Hall.
  replace (forallb (bound (rebind done s)) _) with true; [reflexivity|].
  symmetry. apply forallb_forall. intros p Hp. apply Hb, Hall, Hp.
Qed.

Lemma rebind_last (done : list Call) (p : string) (v : ExprValue) (s : OpState) :
  req_bindings (encode (rebind (done ++ [CallBind p v]) s)) !! p = Some v.
Proof.
  unfold rebind. rewrite fold_left_app. simpl. apply lookup_insert_eq.
Qed.

(** C7. A moved-from builder, and a builder that was executed with
    success, is refused by [execute] with StageMisuse and nothing is put on
    the wire.  After a successful execute, whatever calls are made, those
    that take effect are [bind] calls, and every [bind] with a valid name
    does; [execute] takes the builder again exactly when one did, and then,
    when the session answers, it returns a new result, with the builder's
    state and the new bindings in one more request on the wire.  A further
    execute that returns gives a result that is not the earlier one. *)
Theorem execute_single_shot (x x1 : Executable) (w w1 : World)
    (r : Result Reply) (cs : list Call) :
  execute x w = (Returned r, x1, w1) ->
  (forall y v, moved_from y = true -> execute y v = (Thrown StageMisuse, y, v))
  /\ moved_from (snd (Executable_move x)) = true
  /\ execute x1 w1 = (Thrown StageMisuse, x1, w1)
  /\ Forall (fun c => is_bind c = true) (fst (calls cs x1))
  /\ (fst (calls cs x1) = [] ->
        execute (snd (calls cs x1)) w1
        = (Thrown StageMisuse, snd (calls cs x1), w1))
  /\ (fst (fst (execute (snd (calls cs x1)) w1)) <> Thrown StageMisuse
      <-> fst (calls cs x1) <> [])
  /\ (forall r' x3 w3,
        execute (snd (calls cs x1)) w1 = (Returned r', x3, w3) ->
        fst (calls cs x1) <> []
        /\ (exists req, wire w3 = wire w1 ++ [req])
        /\ result_id r' <> result_id r)
  /\ (forall p v, In (CallBind p v) cs -> valid_param_name p = true ->
        In (CallBind p v) (fst (calls cs x1)))
  /\ (forall t1 rep,
        m_task x1 = Some t1 ->
        fst (calls cs x1) <> [] ->
        submit (encode (rebind (fst (calls cs x1)) (state t1))) = inr rep ->
        execute (snd (calls cs x1)) w1
        = (Returned (mkResult (length (wire w1)) rep),
           mkExecutable
             (Some (mkTask (rebind (fst (calls cs x1)) (state t1)) true false)),
           mkWorld
             (wire w1 ++ [encode (rebind (fst (calls cs x1)) (state t1))])
             (alive w1)))
  /\ (forall done p v (s : OpState),
        req_bindings (encode (rebind (done ++ [CallBind p v]) s)) !! p = Some v).
Proof.
  intros Hx.
  destruct (execute_validated _ _ _ _ _ Hx) as (t0 & Ht0 & Hval).
  apply execute_returned in Hx as (t & Ht & _ & -> & -> & Hid).
  assert (t0 = t) by congruence. subst t0.
  split.
  { intros y v Hy. apply execute_refused. unfold accepts, moved_from in *.
    destruct (m_task y); [discriminate | reflexivity]. }
  split; [reflexivity|].
  split; [apply execute_refused; reflexivity|].
  set (x1 := mkExecutable (Some (mkTask (state t) true false))).
  set (w1 := mkWorld (wire w ++ [encode (state t)]) (alive w)).
  destruct (calls_executed cs x1 _ eq_refl eq_refl)
    as [Hall (t' & Ht' & He' & Hr')].
  cbn [rebound] in Hr'.
  assert (Hacc : accepts (snd (calls cs x1))
                 = match fst (calls cs x1) with [] => false | _ => true end).
  { unfold accepts. rewrite Ht', He', Hr'.
    destruct (fst (calls cs x1)); reflexivity. }
  split; [exact Hall|].
  split.
  { intros Hnil. apply execute_refused. rewrite Hacc, Hnil. reflexivity. }
  split.
  { split.
    - intros Hne Hnil. apply Hne. rewrite execute_refused; [reflexivity|].
      rewrite Hacc, Hnil. reflexivity.
    - intros Hne. apply execute_taken. rewrite Hacc.
      destruct (fst (calls cs x1)); [congruence | reflexivity]. }
  destruct (calls_executed_state cs x1 _ eq_refl eq_refl)
    as [(t'' & Ht'' & Hstate) Hin].
  cbn [state] in Hstate.
  assert (t'' = t') by congruence. subst t''.
  split.
  { intros r' x3 w3 Hx3.
    apply execute_returned in Hx3 as (t3 & Ht3 & Hacc3 & -> & -> & Hid3).
    split.
    { rewrite Hacc in Hacc3. destruct (fst (calls cs x1)); [discriminate|].
      discriminate. }
    split; [eexists; reflexivity|].
    rewrite Hid, Hid3. subst w1. cbn [wire]. rewrite length_app. simpl. lia. }
  split; [exact Hin|].
  split; [|intros; apply rebind_last].
  intros t1 rep [= <-] Hne Hsub. cbn [state] in *.
  unfold Crud.execute. rewrite Ht', He', Hr'.
  destruct (fst (calls cs x1)) as [|c0 done] eqn:Hdone; [congruence|].
  cbn [andb negb]. rewrite Hstate.
  rewrite (validate_rebind w w1 (state t) (c0 :: done) eq_refl Hval).
  rewrite Hsub. reflexivity.
Qed.

End Values.

End CrudFacts.

Module Scenarios.
Import Core Sort Crud Sample.
Local Open Scope string_scope.
Local Open Scope crud_scope.

Lemma stage_order_sample :
  Hierarchy.run (Hierarchy.entry Hierarchy.Modify)
    [Hierarchy.m_set; Hierarchy.m_unset; Hierarchy.m_sort; Hierarchy.m_limit;
     Hierarchy.m_execute]
  = Some Hierarchy.Result.
Proof. reflexivity. Qed.

Lemma added_is_add12 : added = Some (Returned add12).
Proof. reflexivity. Qed.

Lemma empty_add_unrepresentable_witness :
  Reached placeholders value_placeholders submit users add12
  /\ Hierarchy.step Hierarchy.CollectionAddBase Hierarchy.m_execute = None.
Proof.
  assert (H : Reached placeholders value_placeholders submit users add12).
  { eapply reached_entry with (d := doc1) (rest := [doc2]); reflexivity. }
  split; [exact H|].
  exact (proj1 (proj2 (CrudFacts.empty_add_unrepresentable
                         placeholders value_placeholders submit users add12 H))).
Defined.

Lemma move_keeps_collection_witness :
  Reached placeholders value_placeholders submit users add12
  /\ add_coll (fst (CollectionAdd_move add12)) = add_coll add12.
Proof.
  assert (H : Reached placeholders value_placeholders submit users add12).
  { eapply reached_entry with (d := doc1) (rest := [doc2]); reflexivity. }
  split; [exact H|].
  exact (proj1 (CrudFacts.move_keeps_collection
                  placeholders value_placeholders submit users add12 add12 H)).
Defined.

Lemma last_write_wins_witness :
  live found = true
  /\ valid_param_name "x" = true
  /\ option_map op_limit
       (state_after (limit 10 ;;; limit 3) found)
     = Some (Some 3%N).
Proof.
  assert (H1 : live found = true) by reflexivity.
  assert (H2 : valid_param_name "x" = true) by reflexivity.
  split; [exact H1|]. split; [exact H2|].
  exact (proj1 (proj2 (proj1 (CrudFacts.last_write_wins
                                found 10 3 "x" (VInt 1) (VInt 2) H1 H2)))).
Defined.

Lemma execute_single_shot_witness :
  Sample.execute bound_find world0
  = (Returned (mkResult 0 0), executed_find, world1)
  /\ Sample.execute executed_find world1
     = (Thrown StageMisuse, executed_find, world1)
  /\ fst (fst (Sample.execute
                 (snd (calls [CallSort "a"; CallBind "x" (VInt 5)] executed_find))
                 world1))
     = Returned (mkResult 1 0).
Proof.
  assert (H : Sample.execute bound_find world0
              = (Returned (mkResult 0 0), executed_find, world1)) by reflexivity.
  pose proof (CrudFacts.execute_single_shot
                placeholders value_placeholders submit
                bound_find executed_find world0 world1
                (mkResult 0 0) [CallSort "a"; CallBind "x" (VInt 5)] H) as T.
  split; [exact H|].
  split; [exact (proj1 (proj2 (proj2 T)))|].
  destruct T as (_ & _ & _ & _ & _ & _ & _ & _ & Hagain & _).
  assert (Hne : fst (calls [CallSort "a"; CallBind "x" (VInt 5)] executed_find)
                <> []) by (vm_compute; discriminate).
  exact (f_equal (fun z => fst (fst z))
           (Hagain (mkTask bound_state true false) 0 eq_refl Hne eq_refl)).
Defined.

Lemma sort_iterable_null_iff_empty_witness :
  (forall key log, fst (record_sort key log) <> NullDeref)
  /\ sort_iterable record_sort (mkKeyList [] "a ASC") [] = (NullDeref, []).
Proof.
  assert (H : forall key log, fst (record_sort key log) <> NullDeref).
  { intros key log. simpl. discriminate. }
  split; [exact H|].
  exact (proj1 (proj2 (SortFacts.sort_iterable_null_iff_empty
                         record_sort (mkKeyList [] "a ASC") [] H))
               eq_refl).
Defined.

(** C4. The template overload does not append the elements: for a
    container of the two keys [a ASC] and [b DESC] that converts to the text
    [a ASC, b DESC], [do_sort] is called twice with that whole text, on the
    recording hook as on a Find builder, where one call per element would
    leave the two keys; a [std::string] of two characters gives the whole
    string twice. *)
Theorem sort_iterable_repeats_whole :
  snd (sort_iterable record_sort two_keys [])
  = ["a ASC, b DESC"; "a ASC, b DESC"]
  /\ option_map op_sort (state_after (sort_iterable do_sort two_keys) found)
     = Some ["a ASC, b DESC"; "a ASC, b DESC"]
  /\ option_map op_sort
       (state_after
          (fun y => Core.and_then (sort_each do_sort (fun el => el) (elements two_keys) None)
                              deref y)
          found)
     = Some ["a ASC"; "b DESC"]
  /\ option_map op_sort (state_after (sort_iterable do_sort "ab") found)
     = Some ["ab"; "ab"].
Proof. repeat split; reflexivity. Qed.

(** C5. A variadic [sort] whose last argument is a [std::string] hands it
    to the template overload: [sort("a ASC", std::string("b DESC"))]
    leaves the key [b DESC] six times, once per character, where the single
    calls on text keys leave it once. *)
Theorem variadic_sort_last_iterable :
  option_map op_sort
    (state_after
       (sort_variadic (Ord := string) do_sort (ArgCStr "a ASC") [ArgOrd "b DESC"])
       found)
  = Some ["a ASC"; "b DESC"; "b DESC"; "b DESC"; "b DESC"; "b DESC"; "b DESC"]
  /\ option_map req_sort
       (request_after
          (sort_variadic (Ord := string) do_sort (ArgCStr "a ASC") [ArgOrd "b DESC"])
          found)
     = Some ["a ASC"; "b DESC"; "b DESC"; "b DESC"; "b DESC"; "b DESC"; "b DESC"]
  /\ option_map op_sort
       (state_after
          (sort_variadic (Ord := string) do_sort (ArgCStr "a ASC") [ArgCStr "b DESC"])
          found)
     = Some ["a ASC"; "b DESC"]
  /\ snd (sort_variadic (Ord := string) record_sort (ArgCStr "a ASC")
            [ArgOrd "b DESC"] [])
     = ["a ASC"; "b DESC"; "b DESC"; "b DESC"; "b DESC"; "b DESC"; "b DESC"].
Proof. repeat split; reflexivity. Qed.

End Scenarios.

(* ===================================================================== *)
(** * Further properties of the class table *)
(* ===================================================================== *)

Module ChainFacts.
Import Hierarchy Chains.















(** *** Calls that cannot be repeated *)

Lemma before_irreflexive (m : Method) : repeatable m = false -> before m m = false.
Proof.
  intros Hr. unfold before. rewrite Hr, Nat.ltb_irrefl. reflexivity.
Qed.

Lemma occurrences_cons (m a : Method) (ms : list Method) :
  occurrences m (a :: ms)
  = (if Method_eqb m a then 1 else 0) + occurrences m ms.
Proof. unfold occurrences. simpl. destruct (Method_eqb m a); reflexivity. Qed.

Lemma none_after (m : Method) (ms : list Method) :
  repeatable m = false -> forallb (before m) ms = true -> occurrences m ms = 0.
Proof.
  intros Hr. induction ms as [|a ms IH]; [reflexivity|].
  cbn [forallb]. intros Hall. apply andb_true_iff in Hall as [Ha Hall].
  rewrite occurrences_cons, (IH Hall).
  destruct (Method_eqb m a) eqn:Heq; [|reflexivity].
  apply HierarchyFacts.Method_eqb_eq in Heq. subst a.
  rewrite (before_irreflexive m Hr) in Ha. discriminate.
Qed.

Lemma ordered_once (m : Method) (ms : list Method) :
  repeatable m = false -> ordered ms = true -> occurrences m ms <= 1.
Proof.
  intros Hr. induction ms as [|a ms IH]; [intros _; apply Nat.le_0_l|].
  cbn [ordered]. intros Ho. apply andb_true_iff in Ho as [Ha Ho].
  rewrite occurrences_cons. specialize (IH Ho).
  destruct (Method_eqb m a) eqn:Heq; [|exact IH].
  apply HierarchyFacts.Method_eqb_eq in Heq. subst a.
  rewrite (none_after m ms Hr Ha). apply Nat.le_refl.
Qed.

Lemma run_Result (ms : list Method) (c : Class) :
  run Result ms = Some c -> ms = [].
Proof. destruct ms as [|m ms]; [reflexivity | discriminate]. Qed.

Lemma execute_gives_Result (c c' : Class) :
  In c stage_classes -> step c m_execute = Some c' -> c' = Result.
Proof.
  intros Hc Hs. HierarchyFacts.each_stage Hc; vm_compute in Hs;
    try discriminate; injection Hs as <-; reflexivity.
Qed.

Lemma nothing_after_execute (pre : list Method) : forall c c' post,
  In c stage_classes -> run c (pre ++ m_execute :: post) = Some c' -> post = [].
Proof.
  induction pre as [|m pre IH]; intros c c' post Hc Hr.
  - cbn [app run] in Hr. destruct (step c m_execute) as [c1|] eqn:Hs; [|discriminate].
    apply (execute_gives_Result _ _ Hc) in Hs. subst c1.
    eapply run_Result. exact Hr.
  - cbn [app run] in Hr. destruct (step c m) as [c1|] eqn:Hs; [|discriminate].
    eapply IH; [|exact Hr]. eapply HierarchyFacts.step_closed; eassumption.
Qed.

(** X5. In a chain that type-checks on a Find, Remove or Modify builder,
    [sort], [limit], [offset] and [execute] are each called at most once,
    and nothing follows [execute]: several sort keys cannot be given by
    chaining [sort] calls. *)
Theorem stage_calls_at_most_once (b : Builder) (c : Class) (ms : list Method) :
  c = entry b \/ c = sort_stage b ->
  legal c ms ->
  occurrences m_sort ms <= 1
  /\ occurrences m_limit ms <= 1
  /\ occurrences m_offset ms <= 1
  /\ occurrences m_execute ms <= 1
  /\ (forall pre post, ms = pre ++ m_execute :: post -> post = []).
Proof.
  intros Hc [c' Hr].
  assert (Hst : In c stage_classes).
  { destruct Hc as [-> | ->]; destruct b; vm_compute; tauto. }
  pose proof (HierarchyFacts.run_ordered ms c c' Hst Hr) as Ho.
  repeat split; try (apply ordered_once; [reflexivity | exact Ho]).
  intros pre post ->. eapply nothing_after_execute; eassumption.
Qed.

Lemma stage_calls_at_most_once_witness :
  legal (entry Find) [m_sort; m_limit; m_offset; m_bind; m_execute]
  /\ occurrences m_sort [m_sort; m_limit; m_offset; m_bind; m_execute] <= 1.
Proof.
  assert (H : legal (entry Find) [m_sort; m_limit; m_offset; m_bind; m_execute]).
  { exists Result. reflexivity. }
  split; [exact H|].
  exact (proj1 (stage_calls_at_most_once Find (entry Find) _ (or_introl eq_refl) H)).
Defined.

(** *** Hooks stay out of reach *)

Lemma user_step (c c' : Class) (m : Method) :
  In c user_classes -> step c m = Some c' ->
  In c' user_classes /\ is_hook m = false.
Proof.
  intros Hc Hs. unfold user_classes, facades, stage_classes in Hc. simpl in Hc.
  repeat (destruct Hc as [Hc | Hc]; [subst | ]); try contradiction;
    destruct m; vm_compute in Hs; try discriminate; injection Hs as <-;
    (split; [vm_compute; tauto | reflexivity]).
Qed.

Lemma user_run (ms : list Method) : forall c c',
  In c user_classes -> run c ms = Some c' ->
  forallb (fun m => negb (is_hook m)) ms = true.
Proof.
  induction ms as [|m ms IH]; intros c c' Hc Hr; [reflexivity|].
  cbn [run] in Hr. destruct (step c m) as [c1|] eqn:Hs; [|discriminate].
  destruct (user_step _ _ _ Hc Hs) as [Hc1 Hm].
  cbn [forallb]. rewrite Hm. simpl. eapply IH; eassumption.
Qed.

(** X6. No chain that starts on one of the classes that hand out builders
    ([CollectionAddBase], [CollectionFind], [CollectionRemove],
    [CollectionModifyBase]) can call a [do_*] hook or [initialize], although
    [RemoveExec] declares its overrides public: the references the chain
    passes through are to the classes that keep them private. *)
Theorem hooks_out_of_reach (c : Class) (ms : list Method) :
  In c facades ->
  legal c ms ->
  forallb (fun m => negb (is_hook m)) ms = true
  /\ step RemoveExec m_do_sort = Some CollectionRemoveLimit
  /\ step RemoveExec m_do_limit = Some BindExec.
Proof.
  intros Hc [c' Hr]. split; [|split; reflexivity].
  eapply user_run; [|exact Hr].
  unfold user_classes. apply in_or_app. left. exact Hc.
Qed.

Lemma hooks_out_of_reach_witness :
  In CollectionRemove facades
  /\ legal CollectionRemove [m_remove; m_sort; m_limit; m_execute]
  /\ forallb (fun m => negb (is_hook m)) [m_remove; m_sort; m_limit; m_execute]
     = true.
Proof.
  assert (H1 : In CollectionRemove facades) by (vm_compute; tauto).
  assert (H2 : legal CollectionRemove [m_remove; m_sort; m_limit; m_execute]).
  { exists Result. reflexivity. }
  split; [exact H1|]. split; [exact H2|].
  exact (proj1 (hooks_out_of_reach CollectionRemove _ H1 H2)).
Defined.

End ChainFacts.

(* ===================================================================== *)
(** * Further properties of the [sort] overloads *)
(* ===================================================================== *)

Module SortCallFacts.
Import Core Sort Probe.
Local Open Scope crud_scope.

Lemma last_cons_default {A} (l : list A) : forall a d : A,
  List.last (a :: l) d = List.last l a.
Proof.
  induction l as [|b l IH]; intros a d; [reflexivity|].
  change (List.last (a :: b :: l) d) with (List.last (b :: l) d).
  rewrite (IH b d), (IH b a). reflexivity.
Qed.

Section Generic.
Context {Obj R Ord : Type} `{Iterable Ord}.
Variable do_sort : string -> M Obj R.

Lemma and_then_ret {A B} (a : A) (k : A -> M Obj B) (s : Obj) :
  Core.and_then (Core.ret a) k s = k a s.
Proof. reflexivity. Qed.

Lemma do_sort_seq_app (l1 l2 : list string) : forall ret s,
  do_sort_seq do_sort (l1 ++ l2) ret s
  = (p <- do_sort_seq do_sort l1 ret ;; do_sort_seq do_sort l2 p) s.
Proof.
  induction l1 as [|k l1 IH]; intros ret s; [reflexivity|].
  cbn [app do_sort_seq]. rewrite SortFacts.bind_assoc.
  apply SortFacts.bind_ext. intros r s'. apply IH.
Qed.

Lemma do_sort_seq_defined (ks : list string) :
  (forall k s, fst (do_sort k s) <> NullDeref) ->
  forall ret s, fst (do_sort_seq do_sort ks ret s) <> NullDeref.
Proof.
  intros Hdef. induction ks as [|k ks IH]; intros ret s.
  - simpl. discriminate.
  - cbn [do_sort_seq]. unfold Core.and_then. specialize (Hdef k s).
    destruct (do_sort k s) as [[r| |] s']; simpl in *;
      [apply IH | discriminate | congruence].
Qed.

(** All arguments but the last go to [do_sort]; the last one goes to the
    overload a call with this one argument selects. *)
Lemma sort_variadic_split (rest : list (SortArg Ord)) : forall ord ret s,
  sort_variadic do_sort ord rest s
  = (do_sort_seq do_sort
       (map (as_key (Ord := Ord)) (removelast (ord :: rest))) ret ;;;
     sort1 do_sort (List.last rest ord)) s.
Proof.
  induction rest as [|next rest IH]; intros ord ret s; [reflexivity|].
  change (removelast (ord :: next :: rest))
    with (ord :: removelast (next :: rest)).
  rewrite last_cons_default.
  cbn [sort_variadic map do_sort_seq]. rewrite SortFacts.bind_assoc.
  apply SortFacts.bind_ext. intros r s'. apply IH.
Qed.

(** X7. For arguments of any types and any override of [do_sort], the
    variadic [sort] calls [do_sort] on the conversion of every argument but
    the last, in order, and then makes the one-argument call [sort(last)]:
    only the last argument goes through overload resolution. *)
Theorem sort_variadic_all_but_last (ord : SortArg Ord)
    (rest : list (SortArg Ord)) (s : Obj) :
  sort_variadic do_sort ord rest s
  = (do_sort_seq do_sort
       (map (as_key (Ord := Ord)) (removelast (ord :: rest))) None ;;;
     sort1 do_sort (List.last rest ord)) s.
Proof. apply sort_variadic_split. Qed.

(** X8. For any override of [do_sort], the template overload calls
    [do_sort] as many times as the iterable has elements, each time on the
    conversion of the whole iterable, and returns what the last call
    returned. *)
Theorem sort_iterable_calls (ord : Ord) (s : Obj) :
  sort_iterable do_sort ord s
  = (p <- do_sort_seq do_sort
            (repeat (to_string ord) (length (elements ord))) None ;;
     deref p) s.
Proof.
  unfold sort_iterable, Core.and_then.
  rewrite SortFacts.sort_loop_repeat. reflexivity.
Qed.

(** X9. The variadic [sort] is not all-or-nothing: when the call of
    [do_sort] for one key throws, after the calls for the keys before it
    returned, the variadic call throws the same, the object keeps what the
    earlier calls did to it, and the later keys are not passed on. *)
Theorem sort_variadic_stops_at_throw (ord a : SortArg Ord)
    (rest pre post : list (SortArg Ord)) (s s1 s2 : Obj) (p : option R)
    (e : ErrorKind) :
  ord :: rest = pre ++ a :: post ->
  post <> [] \/ is_text a = true ->
  do_sort_seq do_sort (map (as_key (Ord := Ord)) pre) None s = (Returned p, s1) ->
  do_sort (as_key a) s1 = (Thrown e, s2) ->
  sort_variadic do_sort ord rest s = (Thrown e, s2).
Proof.
  intros Hargs Hpos Hpre Hthrow.
  rewrite (sort_variadic_split rest ord None s), Hargs.
  destruct post as [|b post].
  - destruct Hpos as [Hne | Htext]; [congruence|].
    rewrite removelast_last.
    assert (Hlast : List.last rest ord = a).
    { rewrite <- (last_cons_default rest ord ord), Hargs. apply last_last. }
    rewrite Hlast. unfold Core.and_then. rewrite Hpre.
    destruct a as [k|k|o]; simpl in Htext; try discriminate; exact Hthrow.
  - rewrite removelast_app by discriminate.
    change (removelast (a :: b :: post)) with (a :: removelast (b :: post)).
    unfold Core.and_then. rewrite map_app, do_sort_seq_app.
    unfold Core.and_then. rewrite Hpre. cbn [map do_sort_seq].
    unfold Core.and_then. rewrite Hthrow. reflexivity.
Qed.

(** X11. For any override of [do_sort] without undefined behaviour of its
    own, the variadic [sort] dereferences a null pointer only if its last
    argument is an iterable with no element. *)
Theorem sort_variadic_null_only_if (ord : SortArg Ord)
    (rest : list (SortArg Ord)) (s : Obj) :
  (forall k s0, fst (do_sort k s0) <> NullDeref) ->
  fst (sort_variadic do_sort ord rest s) = NullDeref ->
  empty_iterable (List.last rest ord) = true.
Proof.
  intros Hdef. rewrite (sort_variadic_split rest ord None s).
  unfold Core.and_then.
  pose proof (do_sort_seq_defined
                (map (as_key (Ord := Ord)) (removelast (ord :: rest)))
                Hdef None s) as Hseq.
  destruct (do_sort_seq do_sort _ None s) as [[p| |] s1]; simpl in Hseq;
    [|discriminate|congruence].
  destruct (List.last rest ord) as [k|k|o]; cbn [sort1 empty_iterable].
  - intros Hn. exfalso. exact (Hdef k s1 Hn).
  - intros Hn. exfalso. exact (Hdef k s1 Hn).
  - unfold sort_iterable, Core.and_then.
    pose proof (SortFacts.sort_loop_defined do_sort o (elements o) Hdef None s1)
      as Hloop.
    pose proof (SortFacts.sort_loop_pointer do_sort o (elements o) None s1)
      as Hptr.
    destruct (sort_loop do_sort o (elements o) None s1) as [[[r|]| |] s2];
      simpl in *; try discriminate; try congruence.
    intros _. destruct (Hptr eq_refl) as [-> _]. reflexivity.
Qed.

(** X12. For arguments that all select a text overload ([mysqlx::string]
    or C strings) and any override of [do_sort], the variadic [sort] is the
    calls of [do_sort], one per key, in the order of the arguments, and it
    returns what the last call returned. *)
Theorem sort_variadic_text_keys (ord : SortArg Ord)
    (rest : list (SortArg Ord)) (s : Obj) :
  forallb is_text (ord :: rest) = true ->
  sort_variadic do_sort ord rest s
  = (p <- do_sort_seq do_sort (map (as_key (Ord := Ord)) (ord :: rest)) None ;;
     deref p) s.
Proof. intros Ht. apply SortFacts.sort_variadic_text. exact Ht. Qed.

End Generic.

(** *** What the recording override sees *)

Lemma record_seq (ks : list string) : forall (ret : option unit) (log : list string),
  do_sort_seq record_sort ks ret log
  = (Returned (match ks with [] => ret | _ => Some tt end), log ++ ks).
Proof.
  induction ks as [|k ks IH]; intros ret log.
  - simpl. rewrite app_nil_r. reflexivity.
  - cbn [do_sort_seq]. unfold Core.and_then, record_sort at 1.
    rewrite IH, <- app_assoc. destruct ks; reflexivity.
Qed.

Lemma record_sort1 {Ord} `{Iterable Ord} (a : SortArg Ord) (log : list string) :
  sort1 record_sort a log
  = (if empty_iterable a then NullDeref else Returned tt,
     log ++ keys_of_last a).
Proof.
  destruct a as [k|k|o]; try reflexivity.
  cbn [sort1 empty_iterable keys_of_last].
  unfold sort_iterable, Core.and_then.
  rewrite SortFacts.sort_loop_repeat, record_seq.
  destruct (elements o); reflexivity.
Qed.

(** X10. With the override that only records its key, a variadic [sort]
    on arguments of any types leaves in the record the conversions of all
    arguments but the last, in order, followed by the last one itself if it
    selects a text overload and else by its conversion once per element; it
    returns unless the last argument is an iterable with no element, where it
    dereferences a null pointer after the earlier keys were recorded. *)
Theorem sort_variadic_recorded {Ord} `{Iterable Ord} (ord : SortArg Ord)
    (rest : list (SortArg Ord)) (log : list string) :
  sort_variadic record_sort ord rest log
  = (if empty_iterable (List.last rest ord) then NullDeref else Returned tt,
     log ++ map (as_key (Ord := Ord)) (removelast (ord :: rest))
         ++ keys_of_last (List.last rest ord)).
Proof.
  rewrite (sort_variadic_split record_sort rest ord None log).
  unfold Core.and_then. rewrite record_seq, record_sort1, <- app_assoc.
  reflexivity.
Qed.

Lemma sort_variadic_stops_at_throw_witness :
  sort_variadic (Ord := string) strict_sort (ArgCStr "a") [ArgCStr ""; ArgCStr "b"] []
  = (Thrown InvalidArgument, ["a"%string]).
Proof.
  apply (sort_variadic_stops_at_throw (Ord := string) strict_sort
           (ArgCStr "a") (ArgCStr "") [ArgCStr ""; ArgCStr "b"]
           [ArgCStr "a"] [ArgCStr "b"] [] ["a"%string] ["a"%string] (Some tt)
           InvalidArgument).
  - reflexivity.
  - left. discriminate.
  - reflexivity.
  - reflexivity.
Defined.

Lemma sort_variadic_null_only_if_witness :
  (forall k log, fst (record_sort k log) <> NullDeref)
  /\ fst (sort_variadic record_sort (ArgCStr "a") [ArgOrd (mkKeyList [] "b")] [])
     = NullDeref
  /\ empty_iterable (ArgOrd (mkKeyList [] "b")) = true.
Proof.
  assert (H1 : forall k log, fst (record_sort k log) <> NullDeref).
  { intros k log. simpl. discriminate. }
  assert (H2 : fst (sort_variadic record_sort (ArgCStr "a")
                      [ArgOrd (mkKeyList [] "b")] []) = NullDeref)
    by reflexivity.
  split; [exact H1|]. split; [exact H2|].
  exact (sort_variadic_null_only_if record_sort (ArgCStr "a")
           [ArgOrd (mkKeyList [] "b")] [] H1 H2).
Defined.

Lemma sort_variadic_text_keys_witness :
  forallb (is_text (Ord := string)) [ArgCStr "a"; ArgString "a"; ArgCStr "b"] = true
  /\ sort_variadic (Ord := string) record_sort (ArgCStr "a")
       [ArgString "a"; ArgCStr "b"] []
     = (Returned tt, ["a"; "a"; "b"]%string).
Proof.
  assert (H : forallb (is_text (Ord := string))
                [ArgCStr "a"; ArgString "a"; ArgCStr "b"] = true) by reflexivity.
  split; [exact H|].
  exact (eq_trans
           (sort_variadic_text_keys (Ord := string) record_sort (ArgCStr "a")
              [ArgString "a"; ArgCStr "b"] [] H)
           eq_refl).
Defined.

End SortCallFacts.
